(** * City selector: greedy dispersion followed by minimum-distance repair

    A shallow embedding of [src/city_selector.py] and the properties its
    specification states about it.

    Data.  A pandas frame is a list of rows, each with its index label
    (an integer) in front.  A float that pandas or [math] hands back is a
    rational: every finite binary64 value is one, and the comparisons of the
    program on finite floats are the rational ones.  [float('inf')] is the
    extra value [PInf].  A missing coordinate (NaN in the frame) is [None]
    and only exists before [dropna].

    Outside code.  [DataFrame.sort_values], sklearn's [haversine_distances]
    together with [np.radians] and the scaling by [6371.0], and the nested
    [haversine_distance] are fields of the class [Externals]; the theorems
    say which of their properties they use.  The nested function computes
    in binary64 with the sine, cosine, square root and arctangent of the C
    library, which are not embedded: it is taken as a function from four
    coordinates to the distance it returns, or to nothing where [math.sqrt]
    raises [ValueError] because its argument was rounded below 0 (as for
    some antipodal points, where [a] comes out above 1).

    Effects.  An exception is a value [Raise e]; the [while] loop of the
    repair runs on fuel, [None] meaning that the fuel ran out.  The set
    [selected_indices] of the repair is a [gset Z].

    Left out.  The columns are fields of a record, so the test for the
    columns ['lat'] and ['lng'] cannot fail and is not there; logging is
    not modelled. *)

From Stdlib Require Import ZArith QArith Qminmax Qabs List Lia Lqa Permutation String.
From stdpp Require Import base gmap sets.
Import ListNotations.

Local Open Scope Z_scope.

(** ** Exceptions *)

Inductive exn : Type := ValueError | IndexError | KeyError.

Inductive result (A : Type) : Type :=
| Ok (a : A)
| Raise (e : exn).
Arguments Ok {A} a.
Arguments Raise {A} e.

Definition bind {A B : Type} (r : result A) (k : A -> result B) : result B :=
  match r with
  | Ok a => k a
  | Raise e => Raise e
  end.

Notation "x <- r ;; k" := (bind r (fun x => k))
  (at level 100, r at next level, right associativity).

Fixpoint mapM {A B : Type} (f : A -> result B) (l : list A) : result (list B) :=
  match l with
  | [] => Ok []
  | a :: l' => b <- f a ;; bs <- mapM f l' ;; Ok (b :: bs)
  end.

(** A [for] loop whose body may raise: the state after the last element, or
    the first exception. *)
Fixpoint foldM {A B : Type} (f : A -> B -> result A) (l : list B) (a : A)
  : result A :=
  match l with
  | [] => Ok a
  | b :: l' => a' <- f a b ;; foldM f l' a'
  end.

(** ** Floats *)

Definition Qltb (x y : Q) : bool :=
  match (x ?= y)%Q with
  | Lt => true
  | _ => false
  end.

(** A float that may be [float('inf')]. *)
Inductive xfloat : Type :=
| Fin (q : Q)
| PInf.

(** [a < b] on such floats. *)
Definition xlt (a b : xfloat) : bool :=
  match a, b with
  | Fin x, Fin y => Qltb x y
  | Fin _, PInf => true
  | PInf, _ => false
  end.

Arguments xlt : simpl never.

(** [a <= b] on floats that may be infinite. *)
Definition xle (a b : xfloat) : Prop :=
  match a, b with
  | _, PInf => True
  | PInf, Fin _ => False
  | Fin x, Fin y => (x <= y)%Q
  end.

(** The builtin [min(a, b)]: the first argument unless the second is smaller. *)
Definition py_min (a b : xfloat) : xfloat := if xlt b a then b else a.

(** ** Frames *)

(** A row of the catalog as it is read: the coordinates may be missing. *)
Record RawCity : Type := mkRawCity {
  raw_city : string;
  raw_lat : option Q;
  raw_lng : option Q;
  raw_population : Z
}.

(** A row with both coordinates present. *)
Record City : Type := mkCity {
  city : string;
  lat : Q;
  lng : Q;
  population : Z
}.

(** [df.dropna(subset=['lat', 'lng'])]: order and index labels are kept. *)
Definition dropna (df : list (Z * RawCity)) : list (Z * City) :=
  omap (fun r : Z * RawCity =>
          match raw_lat (snd r), raw_lng (snd r) with
          | Some la, Some lo =>
              Some (fst r, mkCity (raw_city (snd r)) la lo (raw_population (snd r)))
          | _, _ => None
          end) df.

(** [load_city_data], from the frame that [pd.read_csv(csv_file)] hands
    back: the rows below [population_min] are dropped when the floor is
    positive. *)
Definition load_city_data (cities_df : list (Z * RawCity)) (population_min : Z)
  : list (Z * RawCity) :=
  if population_min >? 0 then
    List.filter
      (fun r : Z * RawCity => raw_population (snd r) >=? population_min)
      cities_df
  else cities_df.

(** [a[j]] on an array. *)
Definition index {A : Type} (a : list A) (j : nat) : result A :=
  match nth_error a j with
  | Some x => Ok x
  | None => Raise IndexError
  end.

(** [df.iloc[positions]]: rows by position, [IndexError] out of bounds. *)
Definition iloc {A : Type} (df : list (Z * A)) (positions : list nat)
  : result (list (Z * A)) :=
  mapM (index df) positions.

(** [df.reset_index(drop=True)]: the labels become 0, 1, 2, ... *)
Fixpoint reset_index_from {A : Type} (k : Z) (df : list (Z * A)) : list (Z * A) :=
  match df with
  | [] => []
  | r :: df' => (k, snd r) :: reset_index_from (k + 1) df'
  end.

Definition reset_index {A : Type} (df : list (Z * A)) : list (Z * A) :=
  reset_index_from 0 df.

(** The rows of [selection] are, one by one, the rows that [pool] has at
    [positions]; the labels may differ. *)
Definition rows_at {A : Type} (pool selection : list (Z * A))
    (positions : list nat) : Prop :=
  Forall2
    (fun (row : Z * A) (p : nat) =>
       exists label : Z, nth_error pool p = Some (label, snd row))
    selection positions.

(** [df.loc[label]]: the row under that label when exactly one row has
    it, a frame of the rows when several have it, and [KeyError] when none
    has. *)
Inductive located (A : Type) : Type :=
| Row (row : A)
| Frame (rows : list A)
| NoLabel.
Arguments Row {A} row.
Arguments Frame {A} rows.
Arguments NoLabel {A}.

Definition loc {A : Type} (df : list (Z * A)) (label : Z) : located A :=
  match List.filter (fun r : Z * A => fst r =? label) df with
  | [] => NoLabel
  | [r] => Row (snd r)
  | rows => Frame (map snd rows)
  end.

(** The row that [df.loc[label] = row] leaves in the place of a row, and in
    the places of a pair of rows. *)
Definition assigned {A : Type} (label : Z) (row : A) (r : Z * A) : Z * A :=
  if fst r =? label then (fst r, row) else r.

Definition assigned_pair {A : Type} (label : Z) (row : A)
    (p : (Z * A) * (Z * A)) : (Z * A) * (Z * A) :=
  (assigned label row (fst p), assigned label row (snd p)).

(** [df.loc[label] = row]: the row under that label is overwritten in place;
    labels and length stay. *)
Definition set_loc {A : Type} (df : list (Z * A)) (label : Z) (row : A)
  : list (Z * A) :=
  map (assigned label row) df.

(** ** What the module imports *)

Class Externals : Type := {
  (** [df.sort_values('population', ascending=False)] *)
  sort_values : list (Z * City) -> list (Z * City);
  (** [np.radians] *)
  np_radians : Q -> Q;
  (** [6371.0 * haversine_distances(x, y)] on one pair of points given in
      radians, as sklearn and numpy compute it *)
  distances_km : Q * Q -> Q * Q -> Q;
  (** the nested [haversine_distance(lat1, lon1, lat2, lon2)]: the
      kilometres it returns, or [None] where one of its two calls of
      [math.sqrt] raises [ValueError] *)
  haversine_distance : Q -> Q -> Q -> Q -> option Q
}.

(** ** numpy reductions *)

(** [np.min] of a one-dimensional array. *)
Definition np_min (a : list Q) : result Q :=
  match a with
  | [] => Raise ValueError
  | x :: a' => Ok (fold_left Qmin a' x)
  end.

(** [np.argmax]: the position of the maximum, the first one if it occurs
    more than once. *)
Fixpoint argmax_from (best_idx : nat) (best : Q) (i : nat) (a : list Q) : nat :=
  match a with
  | [] => best_idx
  | x :: a' =>
      if Qltb best x then argmax_from i x (S i) a'
      else argmax_from best_idx best (S i) a'
  end.

Definition np_argmax (a : list Q) : result nat :=
  match a with
  | [] => Raise ValueError
  | x :: a' => Ok (argmax_from 0 x 1 a')
  end.

Section Selector.

Context {ext : Externals}.

(** ** [select_dispersed_cities]: the greedy rounds *)

(** One entry of [min_distances]: [-1] for a position already selected,
    otherwise the least distance to the selected coordinates. *)
Definition min_distance_entry (coords_rad : list (Q * Q))
    (selected_indices : list nat) (selected_coords : list (Q * Q)) (j : nat)
  : result Q :=
  if existsb (Nat.eqb j) selected_indices then Ok (-1)%Q
  else
    city_coord <- index coords_rad j ;;
    np_min (map (distances_km city_coord) selected_coords).

(** The score of position [j] in a round: the entry of [min_distances] for
    a position that is not selected. *)
Definition position_score (coords_rad : list (Q * Q))
    (selected_indices : list nat) (j : nat) : result Q :=
  selected_coords <- mapM (index coords_rad) selected_indices ;;
  city_coord <- index coords_rad j ;;
  np_min (map (distances_km city_coord) selected_coords).

(** The body of [for i in range(1, n_cities)]. *)
Definition greedy_round (coords_rad : list (Q * Q)) (n_valid : nat)
    (selected_indices : list nat) : result (list nat) :=
  selected_coords <- mapM (index coords_rad) selected_indices ;;
  min_distances <-
    mapM (min_distance_entry coords_rad selected_indices selected_coords)
         (seq 0 n_valid) ;;
  next_city_idx <- np_argmax min_distances ;;
  Ok (selected_indices ++ [next_city_idx]).

Fixpoint greedy_rounds (rounds : nat) (coords_rad : list (Q * Q)) (n_valid : nat)
    (selected_indices : list nat) : result (list nat) :=
  match rounds with
  | O => Ok selected_indices
  | S rounds' =>
      selected_indices' <- greedy_round coords_rad n_valid selected_indices ;;
      greedy_rounds rounds' coords_rad n_valid selected_indices'
  end.

(** One row of [np.radians(valid_cities[['lat', 'lng']].values)]. *)
Definition coords_of (c : City) : Q * Q := (np_radians (lat c), np_radians (lng c)).

(** The isolation score of a record as the specification words it: its
    least distance to the records selected so far, with the distance of the
    greedy rounds. *)
Definition isolation_score (selected : list City) (c : City) : result Q :=
  np_min (map (distances_km (coords_of c)) (map coords_of selected)).

(** ** [post_process_city_selection]: the repair loop *)

(** A call of the nested [haversine_distance] on two rows: the distance, or
    the [ValueError] of [math.sqrt]. *)
Definition city_distance (c1 c2 : City) : result Q :=
  match haversine_distance (lat c1) (lng c1) (lat c2) (lng c2) with
  | Some dist => Ok dist
  | None => Raise ValueError
  end.

(** The inner [for j, city2] loop of the closest-pair scan. *)
Definition scan_row (i : Z) (city1 : City) (improved_cities : list (Z * City))
    (st : xfloat * option (Z * Z)) : result (xfloat * option (Z * Z)) :=
  foldM
    (fun (st : xfloat * option (Z * Z)) (r2 : Z * City) =>
       if i >=? fst r2 then Ok st
       else
         dist <- city_distance city1 (snd r2) ;;
         Ok (if xlt (Fin dist) (fst st) then (Fin dist, Some (i, fst r2)) else st))
    improved_cities st.

(** Both loops: [(min_dist, closest_pair)] when they are done. *)
Definition closest_pair_scan (improved_cities : list (Z * City))
  : result (xfloat * option (Z * Z)) :=
  foldM
    (fun (st : xfloat * option (Z * Z)) (r1 : Z * City) =>
       scan_row (fst r1) (snd r1) improved_cities st)
    improved_cities (PInf, None).

(** The pairs of rows whose distance the scan asks for, in the order in
    which it meets them, and what it does with one of them. *)
Definition scanned_pairs (improved_cities : list (Z * City))
  : list ((Z * City) * (Z * City)) :=
  flat_map
    (fun r1 : Z * City =>
       map (pair r1)
         (List.filter (fun r2 : Z * City => negb (fst r1 >=? fst r2))
            improved_cities))
    improved_cities.

Definition pair_distance (p : (Z * City) * (Z * City)) : result Q :=
  city_distance (snd (fst p)) (snd (snd p)).

Definition pair_labels (p : (Z * City) * (Z * City)) : Z * Z :=
  (fst (fst p), fst (snd p)).

Definition scan_pair (st : xfloat * option (Z * Z)) (p : (Z * City) * (Z * City))
  : result (xfloat * option (Z * Z)) :=
  dist <- pair_distance p ;;
  Ok (if xlt (Fin dist) (fst st) then (Fin dist, Some (pair_labels p)) else st).

(** The distance between every two rows of a selection under different
    labels is defined and at least [min_distance_km]: the state the
    specification calls Converged. *)
Definition separated (min_distance_km : Q) (selection : list (Z * City)) : Prop :=
  forall r1 r2 : Z * City,
    In r1 selection -> In r2 selection -> fst r1 <> fst r2 ->
    exists dist : Q,
      city_distance (snd r1) (snd r2) = Ok dist /\ (min_distance_km <= dist)%Q.

(** A measure of how crowded a selection is, for the termination of the
    repair loop: every scanned pair weighs [base] to the power of the number
    of distances between the cities at hand that are larger than its own,
    so that one pair weighs more than [base - 1] pairs that are farther
    apart.  The measure is only looked at where the distances are defined;
    elsewhere a pair counts with distance 0. *)
Definition distance_value (c1 c2 : City) : Q :=
  match city_distance c1 c2 with
  | Ok dist => dist
  | Raise _ => 0%Q
  end.

Definition pair_value (p : (Z * City) * (Z * City)) : Q :=
  distance_value (snd (fst p)) (snd (snd p)).

Definition distance_values (cities : list City) : list Q :=
  flat_map (fun c1 : City => map (distance_value c1) cities) cities.

Definition farther_count (values : list Q) (v : Q) : nat :=
  length (List.filter (Qltb v) values).

Definition pair_weight (base : nat) (values : list Q)
    (p : (Z * City) * (Z * City)) : nat :=
  (base ^ farther_count values (pair_value p))%nat.

Definition crowding (base : nat) (values : list Q)
    (improved_cities : list (Z * City)) : nat :=
  list_sum (map (pair_weight base values) (scanned_pairs improved_cities)).

(** [min_distance] of one candidate: over the selected rows other than the
    one under [replace_idx]. *)
Definition candidate_score (improved_cities : list (Z * City)) (replace_idx : Z)
    (candidate : City) : result xfloat :=
  foldM
    (fun (min_distance : xfloat) (r : Z * City) =>
       if fst r =? replace_idx then Ok min_distance
       else
         dist <- city_distance candidate (snd r) ;;
         Ok (py_min min_distance (Fin dist)))
    improved_cities PInf.

(** The rows of [all_cities] that get past [if idx in selected_indices:
    continue]. *)
Definition search_set (all_cities : list (Z * City)) (selected_indices : gset Z)
  : list (Z * City) :=
  filter (fun r : Z * City => fst r ∉ selected_indices) all_cities.

(** One turn of the [for idx, candidate in all_cities.iterrows()] loop past
    the membership test. *)
Definition search_step (improved_cities : list (Z * City)) (replace_idx : Z)
    (st : option (Z * City) * xfloat) (r : Z * City)
  : result (option (Z * City) * xfloat) :=
  min_distance <- candidate_score improved_cities replace_idx (snd r) ;;
  Ok (if xlt (snd st) min_distance then (Some r, min_distance) else st).

(** The [for idx, candidate in all_cities.iterrows()] loop:
    [(best_replacement with its idx, max_min_distance)] when it is done. *)
Definition best_replacement_search (all_cities : list (Z * City))
    (selected_indices : gset Z) (improved_cities : list (Z * City))
    (replace_idx : Z) : result (option (Z * City) * xfloat) :=
  foldM
    (fun (st : option (Z * City) * xfloat) (r : Z * City) =>
       if bool_decide (fst r ∈ selected_indices) then Ok st
       else search_step improved_cities replace_idx st r)
    all_cities (None, Fin 0).

(** What the loop over the candidates holds when it is done: nothing, with
    [max_min_distance] still 0, or a row of the search set together with
    its score, which is positive. *)
Definition search_result_ok (all_cities : list (Z * City))
    (selected_indices : gset Z) (improved_cities : list (Z * City))
    (replace_idx : Z) (st : option (Z * City) * xfloat) : Prop :=
  match fst st with
  | None => snd st = Fin 0
  | Some b =>
      In b all_cities /\ (fst b ∉ selected_indices)
      /\ candidate_score improved_cities replace_idx (snd b) = Ok (snd st)
      /\ xlt (Fin 0) (snd st) = true
  end.

(** [closest_pair[0] if city1_pop < city2_pop else closest_pair[1]] *)
Definition removal_target (city1_pop city2_pop : Z) (closest_pair : Z * Z) : Z :=
  if city1_pop <? city2_pop then fst closest_pair else snd closest_pair.

(** How one pass through the body of [while improvements_made] ends. *)
Inductive iteration : Type :=
| Converged (improved_cities : list (Z * City))
| Stalled (improved_cities : list (Z * City))
| Replaced (improved_cities : list (Z * City)) (selected_indices : gset Z)
| Aborted (e : exn).

(** The body of the [while] loop.  An exception of the scan or of the
    search for a replacement ends the pass.  [if min_dist < min_distance_km
    and closest_pair is not None] is the match on [closest_pair] with the
    comparison inside; the [else] branch is [Converged].  The two lookups
    [improved_cities.loc[...]] of the message that is logged first raise
    [KeyError] for a label that no row has; where a label is held by
    several rows they give frames, the populations are then columns, and
    [if city1_pop < city2_pop] raises [ValueError].  In the branch that
    replaces, [selected_indices.remove(replace_idx)] raises [KeyError] when
    the label is not in the set; the assignment to
    [improved_cities.loc[replace_idx]] before it is then lost with the
    frame. *)
Definition repair_iteration (all_cities : list (Z * City)) (min_distance_km : Q)
    (improved_cities : list (Z * City)) (selected_indices : gset Z) : iteration :=
  match closest_pair_scan improved_cities with
  | Raise e => Aborted e
  | Ok (min_dist, closest_pair) =>
      match closest_pair with
      | Some (i, j) =>
          if xlt min_dist (Fin min_distance_km) then
            match loc improved_cities i, loc improved_cities j with
            | NoLabel, _ | _, NoLabel => Aborted KeyError
            | Row city1, Row city2 =>
                let replace_idx :=
                  removal_target (population city1) (population city2) (i, j) in
                match best_replacement_search all_cities selected_indices
                        improved_cities replace_idx with
                | Raise e => Aborted e
                | Ok (best_replacement, max_min_distance) =>
                    match best_replacement with
                    | Some best =>
                        if xlt min_dist max_min_distance then
                          let improved_cities' :=
                            set_loc improved_cities replace_idx (snd best) in
                          if bool_decide (replace_idx ∈ selected_indices) then
                            Replaced improved_cities'
                              ({[fst best]} ∪ selected_indices ∖ {[replace_idx]})
                          else Aborted KeyError
                        else Stalled improved_cities
                    | None => Stalled improved_cities
                    end
                end
            | _, _ => Aborted ValueError
            end
          else Converged improved_cities
      | None => Converged improved_cities
      end
  end.

(** [while improvements_made]: a pass that replaced a row is followed by
    another one, any other pass is the last. *)

Fixpoint repair_loop (fuel : nat) (all_cities : list (Z * City))
    (min_distance_km : Q) (improved_cities : list (Z * City))
    (selected_indices : gset Z) : option (result (list (Z * City))) :=
  match fuel with
  | O => None
  | S fuel' =>
      match repair_iteration all_cities min_distance_km improved_cities
              selected_indices with
      | Converged df => Some (Ok df)
      | Stalled df => Some (Ok df)
      | Replaced df s => repair_loop fuel' all_cities min_distance_km df s
      | Aborted e => Some (Raise e)
      end
  end.

Definition post_process_city_selection (fuel : nat)
    (selected_cities all_cities : list (Z * City)) (min_distance_km : Q)
  : option (result (list (Z * City))) :=
  repair_loop fuel all_cities min_distance_km selected_cities
    (list_to_set (map fst selected_cities)).

(** ** [select_dispersed_cities] *)

(** The greedy part, up to [valid_cities.iloc[selected_indices].reset_index]:
    the sorted frame and the initial selection. *)
Definition greedy_selection (cities_df : list (Z * RawCity)) (n_cities : Z)
  : result (list (Z * City) * list (Z * City)) :=
  let valid_cities := dropna cities_df in
  let n_cities :=
    if Z.of_nat (length valid_cities) <? n_cities
    then Z.of_nat (length valid_cities) else n_cities in
  let coords_rad := map (fun r : Z * City => coords_of (snd r)) valid_cities in
  let sorted_cities := sort_values valid_cities in
  selected_indices <-
    greedy_rounds (Z.to_nat (n_cities - 1)) coords_rad (length sorted_cities)
      [0%nat] ;;
  selected_cities <- iloc sorted_cities selected_indices ;;
  Ok (sorted_cities, reset_index selected_cities).

Definition select_dispersed_cities (fuel : nat) (cities_df : list (Z * RawCity))
    (n_cities : Z) (min_distance_km : Q) : option (result (list (Z * City))) :=
  match greedy_selection cities_df n_cities with
  | Raise e => Some (Raise e)
  | Ok (valid_cities, selected_cities) =>
      post_process_city_selection fuel selected_cities valid_cities
        min_distance_km
  end.

End Selector.

(** ** An instance for examples: points on the equator

    On the equator the great circle through two points is the equator
    itself, so the distance is the Earth radius times the difference of the
    longitudes in radians (less than half a turn apart).  The instance takes
    that value with a rational for pi / 180; it is only used on rows whose
    latitude is 0.  The sort is a stable insertion sort, largest population
    first. *)

Fixpoint insert_by_population (r : Z * City) (l : list (Z * City))
  : list (Z * City) :=
  match l with
  | [] => [r]
  | r' :: l' =>
      if population (snd r') <? population (snd r) then r :: l
      else r' :: insert_by_population r l'
  end.

Definition insertion_sort_values (l : list (Z * City)) : list (Z * City) :=
  fold_right insert_by_population [] l.

Definition equator_radians (x : Q) : Q := (x * (17453293 # 1000000000))%Q.

Definition equator_distances_km (a b : Q * Q) : Q :=
  (6371 * Qabs (snd b - snd a))%Q.

Definition equator_haversine_distance (lat1 lon1 lat2 lon2 : Q) : option Q :=
  Some (6371 * Qabs (equator_radians lon2 - equator_radians lon1))%Q.

Definition equator : Externals := {|
  sort_values := insertion_sort_values;
  np_radians := equator_radians;
  distances_km := equator_distances_km;
  haversine_distance := equator_haversine_distance
|}.

(** A catalog row with both coordinates. *)
Definition raw (name : string) (la lo : Q) (pop : Z) : RawCity :=
  mkRawCity name (Some la) (Some lo) pop.

(** The catalogs and selections of the worked examples. *)

(** Three towns on the equator, the catalog not in order of population. *)
Definition unsorted_catalog : list (Z * RawCity) :=
  [(0, raw "A" 0 0 10); (1, raw "B" 0 1 100); (2, raw "C" 0 10 50)].

(** Three towns on the equator, largest first. *)
Definition small_catalog : list (Z * RawCity) :=
  [(0, raw "A" 0 0 100); (1, raw "B" 0 1 50); (2, raw "C" 0 2 10)].

(** Four towns on the equator, one degree apart. *)
Definition line_catalog : list (Z * RawCity) :=
  [(0, raw "N" 0 1 50); (1, raw "X2" 0 3 20); (2, raw "X1" 0 2 30);
   (3, raw "M" 0 0 100)].

(** A catalog in which no row has both coordinates. *)
Definition blank_catalog : list (Z * RawCity) :=
  [(0, mkRawCity "A" None (Some 0%Q) 10); (1, mkRawCity "B" None None 20)].

(** A selection with two closest pairs at the same distance, and its pool. *)
Definition M_city : City := mkCity "M" 0 0 100.
Definition E_city : City := mkCity "E" 0 1 50.
Definition W_city : City := mkCity "W" 0 (-1) 40.
Definition X_city : City := mkCity "X" 0 90 5.

Definition tied_selection : list (Z * City) :=
  [(0, M_city); (1, E_city); (2, W_city)].

Definition tied_pool : list (Z * City) :=
  [(0, M_city); (1, E_city); (2, W_city); (3, X_city)].

(** Two towns of the same population. *)
Definition twin_selection : list (Z * City) :=
  [(0, mkCity "P" 0 0 70); (1, mkCity "Q" 0 1 70)].


(** A selection in which one pair is closer than every other pair. *)
Definition spread_selection : list (Z * City) :=
  [(0, M_city); (1, E_city); (2, mkCity "V" 0 (-2) 40)].

(** ** An instance for examples: a distance that is not defined everywhere

    In binary64 the nested [haversine_distance] raises [ValueError] for
    the points (82, 0) and (-82, -180), which are antipodes: [a] comes out
    as 1.0000000000000002 and [math.sqrt(1 - a)] is asked for the root of
    a negative number.  The instance is the equator instance with no
    distance between these two points, in either direction. *)

Definition is_point (la lo la' lo' : Q) : bool := Qeq_bool la la' && Qeq_bool lo lo'.

Definition antipodes_haversine_distance (lat1 lon1 lat2 lon2 : Q) : option Q :=
  if (is_point lat1 lon1 82 0 && is_point lat2 lon2 (-82) (-180))
     || (is_point lat1 lon1 (-82) (-180) && is_point lat2 lon2 82 0)
  then None
  else equator_haversine_distance lat1 lon1 lat2 lon2.

Definition antipodes : Externals := {|
  sort_values := insertion_sort_values;
  np_radians := equator_radians;
  distances_km := equator_distances_km;
  haversine_distance := antipodes_haversine_distance
|}.

(** The two antipodes as a selection. *)
Definition antipodal_selection : list (Z * City) :=
  [(0, mkCity "North" 82 0 1000); (1, mkCity "South" (-82) (-180) 900)].
(** * Properties *)

(** ** Order on floats *)

Lemma Qltb_lt (x y : Q) : Qltb x y = true <-> (x < y)%Q.
Proof.
  unfold Qltb. pose proof (Qlt_alt x y) as A.
  destruct (x ?= y)%Q; split; intros H; try reflexivity; try discriminate;
    try (apply A; reflexivity); apply A in H; discriminate.
Qed.

Lemma Qltb_ge (x y : Q) : Qltb x y = false <-> (y <= x)%Q.
Proof.
  split.
  - intros H. apply Qnot_lt_le. intros H'. apply Qltb_lt in H'. congruence.
  - intros H. destruct (Qltb x y) eqn:E; [|reflexivity].
    apply Qltb_lt in E. exfalso. apply (Qlt_not_le _ _ E H).
Qed.

Lemma xlt_false_xle (a b : xfloat) : xlt a b = false <-> xle b a.
Proof.
  destruct a as [x|], b as [y|]; unfold xlt, xle; try rewrite Qltb_ge; try tauto.
  split; [discriminate | tauto].
Qed.

Lemma xle_refl (a : xfloat) : xle a a.
Proof. destruct a; unfold xlt, xle; [apply Qle_refl | exact I]. Qed.

Lemma xle_trans (a b c : xfloat) : xle a b -> xle b c -> xle a c.
Proof.
  destruct a, b, c; unfold xlt, xle; try tauto. apply Qle_trans.
Qed.

Lemma xlt_xle_trans (a b c : xfloat) : xlt a b = true -> xle b c -> xlt a c = true.
Proof.
  destruct a as [x|], b as [y|], c as [z|]; unfold xlt, xle; try tauto; try discriminate.
  rewrite !Qltb_lt. intros H1 H2. eapply Qlt_le_trans; eassumption.
Qed.

Lemma xlt_xle (a b : xfloat) : xlt a b = true -> xle a b.
Proof.
  destruct a as [x|], b as [y|]; unfold xlt, xle; try tauto; try discriminate.
  rewrite Qltb_lt. apply Qlt_le_weak.
Qed.

Lemma py_min_le_l (a b : xfloat) : xle (py_min a b) a.
Proof.
  unfold py_min. destruct (xlt b a) eqn:E; [apply xlt_xle, E | apply xle_refl].
Qed.

Lemma py_min_le_r (a b : xfloat) : xle (py_min a b) b.
Proof.
  unfold py_min. destruct (xlt b a) eqn:E; [apply xle_refl | apply xlt_false_xle, E].
Qed.

(** ** [np.argmax] and [np.min] *)

Lemma argmax_from_first (a : list Q) : forall (best_idx : nat) (best : Q) (i : nat),
  (argmax_from best_idx best i a = best_idx /\ Forall (fun y => (y <= best)%Q) a)
  \/ exists a1 x a2,
       a = a1 ++ x :: a2
       /\ argmax_from best_idx best i a = (i + length a1)%nat
       /\ (best < x)%Q
       /\ Forall (fun y => (y < x)%Q) a1
       /\ Forall (fun y => (y <= x)%Q) a2.
Proof.
  induction a as [|x a IH]; intros best_idx best i; simpl.
  - left. split; [reflexivity | constructor].
  - destruct (Qltb best x) eqn:E.
    + apply Qltb_lt in E. right.
      destruct (IH i x (S i)) as [[Hk Hall] | (a1 & x' & a2 & Ha & Hk & Hlt & H1 & H2)].
      * exists [], x, a. simpl. rewrite Hk, Nat.add_0_r. repeat split; auto.
      * exists (x :: a1), x', a2. rewrite Hk, Ha. simpl.
        split; [reflexivity |]. split; [lia |].
        split; [eapply Qlt_trans; eassumption |].
        split; [constructor; assumption | assumption].
    + apply Qltb_ge in E.
      destruct (IH best_idx best (S i)) as [[Hk Hall] | (a1 & x' & a2 & Ha & Hk & Hlt & H1 & H2)].
      * left. split; [exact Hk | constructor; assumption].
      * right. exists (x :: a1), x', a2. rewrite Hk, Ha. simpl.
        split; [reflexivity |]. split; [lia |]. split; [assumption |].
        split; [| assumption].
        constructor; [eapply Qle_lt_trans; eassumption | assumption].
Qed.

(** [np.argmax] returns the first position that holds the maximum. *)
Lemma np_argmax_first (a : list Q) (k : nat) :
  np_argmax a = Ok k ->
  exists a1 x a2,
    a = a1 ++ x :: a2 /\ length a1 = k
    /\ Forall (fun y => (y < x)%Q) a1 /\ Forall (fun y => (y <= x)%Q) a2.
Proof.
  destruct a as [|x a]; simpl; [discriminate |].
  intros H. injection H as <-.
  destruct (argmax_from_first a 0 x 1) as [[Hk Hall] | (a1 & x' & a2 & Ha & Hk & Hlt & H1 & H2)].
  - exists [], x, a. rewrite Hk. repeat split; auto.
  - exists (x :: a1), x', a2. rewrite Hk, Ha. simpl.
    split; [reflexivity |]. split; [reflexivity |].
    split; [constructor; assumption | assumption].
Qed.

Lemma np_argmax_ok (a : list Q) : a <> [] -> exists k, np_argmax a = Ok k.
Proof. destruct a; [congruence | intros _; eexists; reflexivity]. Qed.

Lemma fold_Qmin_le (a : list Q) : forall x,
  (fold_left Qmin a x <= x)%Q
  /\ Forall (fun y => (fold_left Qmin a x <= y)%Q) a.
Proof.
  induction a as [|y a IH]; intros x; simpl.
  - split; [apply Qle_refl | constructor].
  - destruct (IH (Qmin x y)) as [H1 H2]. split.
    + eapply Qle_trans; [exact H1 | apply Q.le_min_l].
    + constructor; [eapply Qle_trans; [exact H1 | apply Q.le_min_r] | exact H2].
Qed.

Lemma fold_Qmin_lower (b : Q) (a : list Q) : forall x,
  (b <= x)%Q -> Forall (fun y => (b <= y)%Q) a -> (b <= fold_left Qmin a x)%Q.
Proof.
  induction a as [|y a IH]; intros x Hx Ha; simpl; [exact Hx |].
  inversion Ha; subst. apply IH; [apply Q.min_glb; assumption | assumption].
Qed.

(** [np.min] is a lower bound of the array, and no smaller than any lower
    bound. *)
Lemma np_min_le (a : list Q) (m : Q) :
  np_min a = Ok m -> Forall (fun y => (m <= y)%Q) a.
Proof.
  destruct a as [|x a]; simpl; [discriminate |]. intros H. injection H as <-.
  destruct (fold_Qmin_le a x). constructor; assumption.
Qed.

Lemma np_min_lower (b : Q) (a : list Q) (m : Q) :
  np_min a = Ok m -> Forall (fun y => (b <= y)%Q) a -> (b <= m)%Q.
Proof.
  destruct a as [|x a]; simpl; [discriminate |]. intros H Ha. injection H as <-.
  inversion Ha; subst. apply fold_Qmin_lower; assumption.
Qed.

(** ** Arrays and frames by position *)

Section ByPosition.

Context {A B : Type}.

Lemma mapM_nth_error (f : A -> result B) (l : list A) : forall (ys : list B),
  mapM f l = Ok ys ->
  length ys = length l
  /\ forall (i : nat) (a : A), nth_error l i = Some a ->
       exists y, nth_error ys i = Some y /\ f a = Ok y.
Proof.
  induction l as [|a l IH]; intros ys; simpl.
  - intros H. injection H as <-. split; [reflexivity |].
    intros [|i] a'; discriminate.
  - destruct (f a) as [y|e] eqn:Ef; simpl; [| discriminate].
    destruct (mapM f l) as [ys'|e] eqn:El; simpl; [| discriminate].
    intros H. injection H as <-. destruct (IH ys' eq_refl) as [Hlen Hnth].
    split; [simpl; congruence |].
    intros [|i] a' Hi; simpl in *.
    + injection Hi as <-. exists y. auto.
    + apply Hnth. exact Hi.
Qed.

Lemma mapM_ok (f : A -> result B) (l : list A) :
  (forall a, In a l -> exists y, f a = Ok y) -> exists ys, mapM f l = Ok ys.
Proof.
  induction l as [|a l IH]; intros H; simpl; [eexists; reflexivity |].
  destruct (H a (or_introl eq_refl)) as [y ->]. simpl.
  destruct IH as [ys ->]; [intros a' Ha'; apply H; right; exact Ha' |].
  simpl. eexists. reflexivity.
Qed.

Lemma index_ok (a : list A) (j : nat) :
  (j < length a)%nat -> exists x, index a j = Ok x.
Proof.
  intros H. unfold index. destruct (nth_error a j) eqn:E; [eauto |].
  apply nth_error_None in E. lia.
Qed.

Lemma index_nth_error (a : list A) (j : nat) (x : A) :
  index a j = Ok x <-> nth_error a j = Some x.
Proof.
  unfold index. destruct (nth_error a j); split; congruence.
Qed.

End ByPosition.

Lemma reset_index_from_values {A : Type} (df : list (Z * A)) : forall k,
  map snd (reset_index_from k df) = map snd df.
Proof.
  induction df as [|r df IH]; intros k; simpl; [reflexivity |].
  rewrite IH. reflexivity.
Qed.

Lemma reset_index_from_labels {A : Type} (df : list (Z * A)) : forall k l,
  In l (map fst (reset_index_from k df)) -> k <= l.
Proof.
  induction df as [|r df IH]; intros k l; simpl; [tauto |].
  intros [<- | H]; [lia |]. apply IH in H. lia.
Qed.

Lemma reset_index_from_NoDup {A : Type} (df : list (Z * A)) : forall k,
  List.NoDup (map fst (reset_index_from k df)).
Proof.
  induction df as [|r df IH]; intros k; simpl; constructor; [| apply IH].
  intros H. apply reset_index_from_labels in H. lia.
Qed.

Lemma reset_index_length {A : Type} (df : list (Z * A)) :
  length (reset_index df) = length df.
Proof.
  rewrite <- (length_map snd (reset_index df)), <- (length_map snd df).
  unfold reset_index. rewrite reset_index_from_values. reflexivity.
Qed.

Lemma reset_index_from_rows_at {A : Type} (pool df : list (Z * A))
    (positions : list nat) :
  rows_at pool df positions ->
  forall k, rows_at pool (reset_index_from k df) positions.
Proof.
  unfold rows_at. induction 1 as [|row p df positions Hrow _ IH]; intros k; simpl;
    constructor; [exact Hrow | apply IH].
Qed.

(** [iloc] hands back the rows at the positions asked for. *)
Lemma iloc_rows_at {A : Type} (df : list (Z * A)) (positions : list nat) :
  forall rows, iloc df positions = Ok rows -> rows_at df rows positions.
Proof.
  unfold iloc, rows_at. induction positions as [|p ps IH]; intros rows; simpl.
  - intros H. injection H as <-. constructor.
  - destruct (index df p) as [row|e] eqn:Ep; simpl; [| discriminate].
    destruct (mapM (index df) ps) as [rows'|e]; simpl; [| discriminate].
    intros H. injection H as <-. constructor; [| apply IH; reflexivity].
    apply index_nth_error in Ep. exists (fst row). rewrite Ep.
    destruct row; reflexivity.
Qed.

Lemma rows_at_in {A : Type} (pool df : list (Z * A)) (positions : list nat) :
  rows_at pool df positions ->
  forall q, In q positions ->
    exists row label, In row df /\ nth_error pool q = Some (label, snd row).
Proof.
  unfold rows_at. induction 1 as [|row p df positions [l Hrow] _ IH];
    intros q; simpl; [tauto |].
  intros [<- | Hq].
  - exists row, l. auto.
  - destruct (IH q Hq) as (row' & l' & Hin & Hnth). exists row', l'. auto.
Qed.

Lemma rows_at_incl {A : Type} (pool df : list (Z * A)) (positions : list nat) :
  rows_at pool df positions -> incl (map snd df) (map snd pool).
Proof.
  unfold rows_at. induction 1 as [|row p df positions [l Hrow] _ IH]; simpl.
  - intros x [].
  - intros x [<- | Hx]; [| apply IH; exact Hx].
    apply nth_error_In in Hrow. apply (in_map snd) in Hrow. exact Hrow.
Qed.

Lemma iloc_incl {A : Type} (df : list (Z * A)) (positions : list nat)
    (rows : list (Z * A)) :
  iloc df positions = Ok rows ->
  incl rows df /\ length rows = length positions.
Proof.
  unfold iloc. intros H. destruct (mapM_nth_error _ _ _ H) as [Hlen Hnth].
  split; [| exact Hlen].
  intros row Hrow. apply In_nth_error in Hrow as [k Hk].
  assert (Hk' : (k < length positions)%nat)
    by (rewrite <- Hlen; apply nth_error_Some; congruence).
  destruct (nth_error positions k) as [p|] eqn:Ep;
    [| apply nth_error_None in Ep; lia].
  destruct (Hnth k p Ep) as (y & Hy & Hp). rewrite Hk in Hy. injection Hy as <-.
  apply index_nth_error in Hp. eapply nth_error_In. exact Hp.
Qed.

(** ** Replacing a row in place *)

Section SetLoc.

Context {A : Type}.

Lemma assigned_label (label : Z) (row : A) (r : Z * A) :
  fst (assigned label row r) = fst r.
Proof. unfold assigned. destruct (fst r =? label); reflexivity. Qed.

Lemma set_loc_labels (df : list (Z * A)) (label : Z) (row : A) :
  map fst (set_loc df label row) = map fst df.
Proof.
  unfold set_loc. rewrite map_map. apply map_ext.
  intros r. apply assigned_label.
Qed.

Lemma set_loc_length (df : list (Z * A)) (label : Z) (row : A) :
  length (set_loc df label row) = length df.
Proof. unfold set_loc. apply length_map. Qed.

Lemma set_loc_absent (df : list (Z * A)) (label : Z) (row : A) :
  ~ In label (map fst df) -> set_loc df label row = df.
Proof.
  unfold set_loc, assigned. induction df as [|r df IH]; simpl; intros H;
    [reflexivity |].
  destruct (Z.eqb_spec (fst r) label) as [Heq | Hne];
    [exfalso; apply H; left; exact Heq |].
  rewrite IH by (intros Hin; apply H; right; exact Hin). reflexivity.
Qed.

(** A row of the frame after the assignment is an old row under another
    label, or the new row under the label assigned to. *)
Lemma in_set_loc (df : list (Z * A)) (label : Z) (row : A) (r : Z * A) :
  In r (set_loc df label row) ->
  (In r df /\ fst r <> label) \/ r = (label, row).
Proof.
  unfold set_loc, assigned. intros H. apply in_map_iff in H as (r0 & Hr & Hin).
  destruct (Z.eqb_spec (fst r0) label) as [Heq | Hne]; subst r.
  - right. rewrite Heq. reflexivity.
  - left. auto.
Qed.

(** Over frames with pairwise different labels: if the rows were rows of
    the pool at pairwise different positions and the new row, which the pool
    has at [q], differs from the rows that stay, the same holds after the
    assignment. *)
Lemma set_loc_rows_at (pool df : list (Z * A)) (positions : list nat)
    (label : Z) (row : A) (q : nat) (label_q : Z) :
  rows_at pool df positions ->
  List.NoDup (map fst df) -> List.NoDup positions ->
  nth_error pool q = Some (label_q, row) ->
  (forall r, In r df -> fst r <> label -> snd r <> row) ->
  exists positions',
    rows_at pool (set_loc df label row) positions'
    /\ List.NoDup positions' /\ incl positions' (q :: positions).
Proof.
  intros Hrows. unfold rows_at in Hrows.
  induction Hrows as [|r p df positions Hr Hrows IH]; intros Hl Hp Hq Hnew.
  - exists []. split; [constructor |]. split; [constructor | intros x []].
  - simpl in Hl. apply NoDup_cons_iff in Hl as [Hl1 Hl2].
    apply NoDup_cons_iff in Hp as [Hp1 Hp2].
    change (set_loc (r :: df) label row)
      with (assigned label row r :: set_loc df label row).
    unfold assigned at 1. destruct (Z.eqb_spec (fst r) label) as [Heq | Hne].
    + rewrite set_loc_absent by (rewrite <- Heq; exact Hl1).
      exists (q :: positions). split; [| split].
      * constructor; [exists label_q; exact Hq | exact Hrows].
      * constructor; [| exact Hp2]. intros Hin.
        destruct (rows_at_in pool df positions Hrows q Hin)
          as (r' & l' & Hr' & Hnth).
        rewrite Hq in Hnth. injection Hnth as _ Hrow.
        apply (Hnew r'); [right; exact Hr' | | auto].
        intros Heq'. apply Hl1. rewrite Heq, <- Heq'. apply in_map. exact Hr'.
      * intros x [<- | Hx]; [left; reflexivity | right; right; exact Hx].
    + destruct IH as (positions' & Hrows' & Hnd' & Hincl'); auto.
      { intros r' Hr'. apply Hnew. right. exact Hr'. }
      exists (p :: positions'). split; [| split].
      * constructor; [exact Hr | exact Hrows'].
      * constructor; [| exact Hnd']. intros Hin. apply Hincl' in Hin.
        destruct Hin as [<- | Hin]; [| contradiction].
        destruct Hr as [l Hr]. rewrite Hq in Hr. injection Hr as _ Hrow.
        apply (Hnew r); [left; reflexivity | exact Hne | auto].
      * intros x [<- | Hx]; [right; left; reflexivity |].
        apply Hincl' in Hx. destruct Hx as [<- | Hx];
          [left; reflexivity | right; right; exact Hx].
Qed.

End SetLoc.

(** ** Loops that may raise *)

Lemma foldM_app {A B : Type} (f : A -> B -> result A) (l1 l2 : list B) :
  forall a, foldM f (l1 ++ l2) a = (a' <- foldM f l1 a ;; foldM f l2 a').
Proof.
  induction l1 as [|b l1 IH]; intros a; simpl; [reflexivity |].
  destruct (f a b) as [a'|e]; simpl; [apply IH | reflexivity].
Qed.

(** ** Rows by label *)

Lemma filter_label_set_loc {A : Type} (df : list (Z * A)) (label : Z) (row : A)
    (l : Z) :
  List.filter (fun r : Z * A => fst r =? l) (set_loc df label row)
  = map (assigned label row) (List.filter (fun r : Z * A => fst r =? l) df).
Proof.
  unfold set_loc. induction df as [|r df IH]; simpl; [reflexivity |].
  rewrite assigned_label. destruct (fst r =? l); simpl; rewrite IH; reflexivity.
Qed.

(** A lookup that hands back a row: the frame has that row under the label,
    and no other row under it. *)
Lemma loc_row {A : Type} (df : list (Z * A)) (label : Z) (row : A) :
  loc df label = Row row ->
  In (label, row) df
  /\ forall r : Z * A, In r df -> fst r = label -> r = (label, row).
Proof.
  unfold loc.
  destruct (List.filter (fun r : Z * A => fst r =? label) df) as [|r0 [|r1 rows]]
    eqn:E; try discriminate.
  intros H. injection H as <-.
  assert (H0 : In r0 (List.filter (fun r : Z * A => fst r =? label) df))
    by (rewrite E; left; reflexivity).
  apply filter_In in H0 as [H0 Hl]. apply Z.eqb_eq in Hl.
  assert (Hr0 : r0 = (label, snd r0)) by (destruct r0; simpl in *; congruence).
  split; [rewrite <- Hr0; exact H0 |].
  intros r Hr Hlabel.
  assert (H : In r (List.filter (fun r : Z * A => fst r =? label) df))
    by (apply filter_In; split; [exact Hr | apply Z.eqb_eq; exact Hlabel]).
  rewrite E in H. destruct H as [<- | []]. exact Hr0.
Qed.

(** A label that some row has is found. *)
Lemma loc_label {A : Type} (df : list (Z * A)) (label : Z) :
  In label (map fst df) -> loc df label <> NoLabel.
Proof.
  intros Hin. apply in_map_iff in Hin as (r & Hl & Hr). unfold loc.
  assert (H : In r (List.filter (fun r : Z * A => fst r =? label) df))
    by (apply filter_In; split; [exact Hr | apply Z.eqb_eq; exact Hl]).
  destruct (List.filter (fun r : Z * A => fst r =? label) df) as [|r0 [|r1 rows]];
    [destruct H | discriminate | discriminate].
Qed.

Lemma filter_label_absent {A : Type} (df : list (Z * A)) (label : Z) :
  ~ In label (map fst df) ->
  List.filter (fun r : Z * A => fst r =? label) df = [].
Proof.
  induction df as [|r df IH]; simpl; intros H; [reflexivity |].
  destruct (Z.eqb_spec (fst r) label) as [Heq | Hne];
    [exfalso; apply H; left; exact Heq |].
  apply IH. intros Hin. apply H. right. exact Hin.
Qed.

(** In a frame with pairwise different labels every row is found under its
    label. *)
Lemma loc_in {A : Type} (df : list (Z * A)) (r : Z * A) :
  List.NoDup (map fst df) -> In r df -> loc df (fst r) = Row (snd r).
Proof.
  unfold loc. induction df as [|r0 df IH]; simpl; [tauto |].
  intros Hnd. apply NoDup_cons_iff in Hnd as [Hfresh Hnd].
  destruct (Z.eqb_spec (fst r0) (fst r)) as [Heq | Hne].
  - intros [-> | Hin].
    + rewrite filter_label_absent by exact Hfresh. reflexivity.
    + exfalso. apply Hfresh. rewrite Heq. apply in_map. exact Hin.
  - intros [-> | Hin]; [congruence | auto].
Qed.

(** After [df.loc[label] = row] on a label that one row has, the lookup of
    the label gives the row assigned. *)
Lemma loc_set_loc {A : Type} (df : list (Z * A)) (label : Z) (old row : A) :
  loc df label = Row old -> loc (set_loc df label row) label = Row row.
Proof.
  unfold loc. rewrite filter_label_set_loc.
  destruct (List.filter (fun r : Z * A => fst r =? label) df) as [|r0 [|r1 rows]]
    eqn:E; try discriminate.
  intros _. simpl. unfold assigned.
  assert (H0 : In r0 (List.filter (fun r : Z * A => fst r =? label) df))
    by (rewrite E; left; reflexivity).
  apply filter_In in H0 as [_ Hl]. rewrite Hl. reflexivity.
Qed.

(** ** The closest-pair scan *)

Section Scan.

Context {ext : Externals}.

(** The only exception of a distance is [ValueError]. *)
Lemma city_distance_raises (c1 c2 : City) (e : exn) :
  city_distance c1 c2 = Raise e -> e = ValueError.
Proof.
  unfold city_distance. destruct (haversine_distance _ _ _ _); congruence.
Qed.

Lemma scan_row_pairs (i : Z) (city1 : City) (l : list (Z * City)) :
  forall st,
    scan_row i city1 l st
    = foldM scan_pair
        (map (pair (i, city1))
           (List.filter (fun r2 : Z * City => negb (i >=? fst r2)) l)) st.
Proof.
  unfold scan_row. induction l as [|r2 l IH]; intros st; simpl; [reflexivity |].
  destruct (i >=? fst r2); simpl; [apply IH |].
  assert (Hstep : scan_pair st ((i, city1), r2)
                  = (dist <- city_distance city1 (snd r2) ;;
                     Ok (if xlt (Fin dist) (fst st)
                         then (Fin dist, Some (i, fst r2)) else st)))
    by reflexivity.
  rewrite Hstep.
  destruct (city_distance city1 (snd r2)); simpl; [apply IH | reflexivity].
Qed.

Lemma scan_rows_pairs (improved_cities l : list (Z * City)) :
  forall st,
    foldM
      (fun (st : xfloat * option (Z * Z)) (r1 : Z * City) =>
         scan_row (fst r1) (snd r1) improved_cities st) l st
    = foldM scan_pair
        (flat_map
           (fun r1 : Z * City =>
              map (pair r1)
                (List.filter (fun r2 : Z * City => negb (fst r1 >=? fst r2))
                   improved_cities)) l) st.
Proof.
  induction l as [|r1 l IH]; intros st; simpl; [reflexivity |].
  rewrite foldM_app, scan_row_pairs. destruct r1 as [i c1]. simpl.
  destruct (foldM scan_pair _ st); simpl; [apply IH | reflexivity].
Qed.

(** The two nested loops are one pass over [scanned_pairs]. *)
Lemma closest_pair_scan_pairs (improved_cities : list (Z * City)) :
  closest_pair_scan improved_cities
  = foldM scan_pair (scanned_pairs improved_cities) (PInf, None).
Proof. apply scan_rows_pairs. Qed.

Lemma in_scanned_pairs (improved_cities : list (Z * City)) (r1 r2 : Z * City) :
  In (r1, r2) (scanned_pairs improved_cities)
  <-> In r1 improved_cities /\ In r2 improved_cities /\ fst r1 < fst r2.
Proof.
  unfold scanned_pairs. rewrite in_flat_map. split.
  - intros (x & Hx & Hin). apply in_map_iff in Hin as (y & Heq & Hy).
    injection Heq as -> ->. apply filter_In in Hy as [Hy Hlt].
    repeat split; auto. destruct (fst r1 >=? fst r2) eqn:E; [discriminate |].
    rewrite Z.geb_leb in E. apply Z.leb_gt in E. exact E.
  - intros (H1 & H2 & Hlt). exists r1. split; [exact H1 |].
    apply in_map. apply filter_In. split; [exact H2 |].
    rewrite Z.geb_leb. apply negb_true_iff, Z.leb_gt. exact Hlt.
Qed.

(** A pass that does not raise has measured every pair, and it keeps the
    first pair among those at the least distance. *)
Lemma scan_fold_first (l : list ((Z * City) * (Z * City))) :
  forall st st',
    foldM scan_pair l st = Ok st' ->
    (st' = st
     /\ Forall (fun q => exists dq, pair_distance q = Ok dq
                                    /\ xle (fst st) (Fin dq)) l)
    \/ exists l1 p l2 d,
         l = l1 ++ p :: l2
         /\ pair_distance p = Ok d
         /\ st' = (Fin d, Some (pair_labels p))
         /\ xlt (Fin d) (fst st) = true
         /\ Forall (fun q => exists dq, pair_distance q = Ok dq /\ (d < dq)%Q) l1
         /\ Forall (fun q => exists dq, pair_distance q = Ok dq /\ (d <= dq)%Q) l2.
Proof.
  induction l as [|q l IH]; intros st st' H; simpl in H.
  - injection H as <-. left. split; [reflexivity | constructor].
  - unfold scan_pair at 1 in H.
    destruct (pair_distance q) as [dq|e] eqn:Eq; simpl in H; [| discriminate].
    destruct (xlt (Fin dq) (fst st)) eqn:E.
    + right.
      destruct (IH _ _ H) as [[-> Hall] | (l1 & p & l2 & d & Hl & Hp & -> & Hlt & H1 & H2)].
      * exists [], q, l, dq. split; [reflexivity |]. split; [exact Eq |].
        split; [reflexivity |]. split; [exact E |]. split; [constructor |].
        exact Hall.
      * exists (q :: l1), p, l2, d. simpl in Hlt.
        split; [rewrite Hl; reflexivity |]. split; [exact Hp |].
        split; [reflexivity |].
        split; [eapply xlt_xle_trans; [exact Hlt | apply xlt_xle; exact E] |].
        split; [| exact H2]. constructor; [| exact H1].
        exists dq. split; [exact Eq |]. unfold xlt in Hlt. apply Qltb_lt. exact Hlt.
    + apply xlt_false_xle in E.
      destruct (IH _ _ H) as [[-> Hall] | (l1 & p & l2 & d & Hl & Hp & -> & Hlt & H1 & H2)].
      * left. split; [reflexivity |]. constructor; [| exact Hall].
        exists dq. auto.
      * right. exists (q :: l1), p, l2, d.
        split; [rewrite Hl; reflexivity |]. split; [exact Hp |].
        split; [reflexivity |]. split; [exact Hlt |].
        split; [| exact H2]. constructor; [| exact H1].
        exists dq. split; [exact Eq |].
        pose proof (xlt_xle_trans _ _ _ Hlt E) as H'. unfold xlt in H'.
        apply Qltb_lt. exact H'.
Qed.

(** The scan answers [(inf, None)] when it measures no pair, and otherwise
    the first pair at the least distance, with that distance. *)
Lemma closest_pair_scan_first (improved_cities : list (Z * City))
    (st : xfloat * option (Z * Z)) :
  closest_pair_scan improved_cities = Ok st ->
  (scanned_pairs improved_cities = [] /\ st = (PInf, None))
  \/ exists l1 p l2 d,
       scanned_pairs improved_cities = l1 ++ p :: l2
       /\ pair_distance p = Ok d
       /\ st = (Fin d, Some (pair_labels p))
       /\ Forall (fun q => exists dq, pair_distance q = Ok dq /\ (d < dq)%Q) l1
       /\ Forall (fun q => exists dq, pair_distance q = Ok dq /\ (d <= dq)%Q) l2.
Proof.
  rewrite closest_pair_scan_pairs. intros H.
  destruct (scan_fold_first _ _ _ H)
    as [[-> Hall] | (l1 & p & l2 & d & Hl & Hp & -> & Hlt & H1 & H2)].
  - left. destruct (scanned_pairs improved_cities) as [|q l]; [auto |].
    inversion Hall as [|? ? (dq & _ & Hq) _]; subst. simpl in Hq. contradiction.
  - right. exists l1, p, l2, d. auto.
Qed.

(** Every pair of rows under different labels was measured, and none is
    closer than the distance the scan answers. *)
Lemma closest_pair_scan_lower (improved_cities : list (Z * City))
    (st : xfloat * option (Z * Z)) (r1 r2 : Z * City) :
  closest_pair_scan improved_cities = Ok st ->
  In r1 improved_cities -> In r2 improved_cities -> fst r1 < fst r2 ->
  exists d, city_distance (snd r1) (snd r2) = Ok d /\ xle (fst st) (Fin d).
Proof.
  intros Hscan H1 H2 Hlt.
  assert (Hin : In (r1, r2) (scanned_pairs improved_cities))
    by (apply in_scanned_pairs; auto).
  destruct (closest_pair_scan_first _ _ Hscan)
    as [[Hnil _] | (l1 & p & l2 & d & Hl & Hp & -> & Hl1 & Hl2)].
  - rewrite Hnil in Hin. destruct Hin.
  - rewrite Hl in Hin. simpl.
    apply in_app_or in Hin as [Hin | [-> | Hin]].
    + rewrite List.Forall_forall in Hl1.
      destruct (Hl1 _ Hin) as (dq & Hq & Hlt'). exists dq.
      split; [exact Hq | apply Qlt_le_weak; exact Hlt'].
    + exists d. split; [exact Hp | apply Qle_refl].
    + rewrite List.Forall_forall in Hl2. apply (Hl2 _ Hin).
Qed.

(** A pair that the scan answers is a pair of rows of the selection, the
    first under the smaller label, at the distance it answers. *)
Lemma closest_pair_scan_some (improved_cities : list (Z * City))
    (min_dist : xfloat) (i j : Z) :
  closest_pair_scan improved_cities = Ok (min_dist, Some (i, j)) ->
  exists (r1 r2 : Z * City) (d : Q),
    In r1 improved_cities /\ In r2 improved_cities
    /\ fst r1 = i /\ fst r2 = j /\ i < j
    /\ city_distance (snd r1) (snd r2) = Ok d /\ min_dist = Fin d.
Proof.
  intros Hscan.
  destruct (closest_pair_scan_first _ _ Hscan)
    as [[_ H] | (l1 & [r1 r2] & l2 & d & Hl & Hp & H & _ & _)]; [discriminate |].
  unfold pair_labels in H. simpl in H. injection H as -> -> ->.
  assert (Hin : In (r1, r2) (scanned_pairs improved_cities))
    by (rewrite Hl; apply in_or_app; right; left; reflexivity).
  apply in_scanned_pairs in Hin as (H1 & H2 & Hlt).
  exists r1, r2, d. simpl. repeat split; auto.
Qed.

(** The scan raises nothing but the [ValueError] of a distance, and nothing
    at all when every distance it asks for is defined. *)
Lemma scan_fold_raises (l : list ((Z * City) * (Z * City))) :
  forall st e, foldM scan_pair l st = Raise e -> e = ValueError.
Proof.
  induction l as [|q l IH]; intros st e; simpl; [discriminate |].
  unfold scan_pair at 1, pair_distance.
  destruct (city_distance _ _) as [dq|e'] eqn:Eq; simpl.
  - apply IH.
  - intros H. injection H as <-. eapply city_distance_raises. exact Eq.
Qed.

Lemma closest_pair_scan_raises (improved_cities : list (Z * City)) (e : exn) :
  closest_pair_scan improved_cities = Raise e -> e = ValueError.
Proof. rewrite closest_pair_scan_pairs. apply scan_fold_raises. Qed.

Lemma scan_fold_defined (l : list ((Z * City) * (Z * City))) :
  (forall q, In q l -> exists dq, pair_distance q = Ok dq) ->
  forall st, exists st', foldM scan_pair l st = Ok st'.
Proof.
  induction l as [|q l IH]; intros Hall st; simpl; [eauto |].
  unfold scan_pair at 1. destruct (Hall q (or_introl eq_refl)) as [dq ->]. simpl.
  apply IH. intros q' Hq'. apply Hall. right. exact Hq'.
Qed.

Lemma closest_pair_scan_defined (improved_cities : list (Z * City)) :
  (forall r1 r2 : Z * City,
     In r1 improved_cities -> In r2 improved_cities -> fst r1 < fst r2 ->
     exists d, city_distance (snd r1) (snd r2) = Ok d) ->
  exists st, closest_pair_scan improved_cities = Ok st.
Proof.
  intros Hall. rewrite closest_pair_scan_pairs. apply scan_fold_defined.
  intros [r1 r2] Hin. apply in_scanned_pairs in Hin as (H1 & H2 & Hlt).
  apply (Hall r1 r2 H1 H2 Hlt).
Qed.

End Scan.
(** ** One pass of the repair loop *)

Section Repair.

Context {ext : Externals}.

Lemma candidate_score_fold_le (replace_idx : Z) (candidate : City)
    (l : list (Z * City)) :
  forall acc score,
    foldM
      (fun (min_distance : xfloat) (r : Z * City) =>
         if fst r =? replace_idx then Ok min_distance
         else
           dist <- city_distance candidate (snd r) ;;
           Ok (py_min min_distance (Fin dist)))
      l acc = Ok score ->
    xle score acc
    /\ forall row, In row l -> fst row <> replace_idx ->
         exists d, city_distance candidate (snd row) = Ok d /\ xle score (Fin d).
Proof.
  induction l as [|r l IH]; intros acc score; simpl.
  - intros H. injection H as <-. split; [apply xle_refl | intros row []].
  - destruct (Z.eqb_spec (fst r) replace_idx) as [Heq | Hne]; simpl.
    + intros H. destruct (IH _ _ H) as [H1 H2]. split; [exact H1 |].
      intros row [<- | Hin] Hrow; [congruence | auto].
    + destruct (city_distance candidate (snd r)) as [d|e] eqn:Ed; simpl;
        [| discriminate].
      intros H. destruct (IH _ _ H) as [H1 H2].
      split; [eapply xle_trans; [exact H1 | apply py_min_le_l] |].
      intros row [<- | Hin] Hrow; [| auto].
      exists d. split; [exact Ed |].
      eapply xle_trans; [exact H1 | apply py_min_le_r].
Qed.

(** The score of a candidate is at most its distance to any selected row
    other than the one to be replaced, and all these distances are
    defined. *)
Lemma candidate_score_le (improved_cities : list (Z * City)) (replace_idx : Z)
    (candidate : City) (score : xfloat) (row : Z * City) :
  candidate_score improved_cities replace_idx candidate = Ok score ->
  In row improved_cities -> fst row <> replace_idx ->
  exists d, city_distance candidate (snd row) = Ok d /\ xle score (Fin d).
Proof.
  unfold candidate_score. intros H Hin Hne.
  destruct (candidate_score_fold_le replace_idx candidate improved_cities PInf
              score H) as [_ Hall].
  apply Hall; assumption.
Qed.

Lemma candidate_score_raises (improved_cities : list (Z * City)) (replace_idx : Z)
    (candidate : City) (e : exn) :
  candidate_score improved_cities replace_idx candidate = Raise e ->
  e = ValueError.
Proof.
  unfold candidate_score. generalize PInf.
  induction improved_cities as [|r l IH]; intros acc; simpl; [discriminate |].
  destruct (fst r =? replace_idx); simpl; [apply IH |].
  destruct (city_distance candidate (snd r)) as [d|e'] eqn:Ed; simpl; [apply IH |].
  intros H. injection H as <-. eapply city_distance_raises. exact Ed.
Qed.

Lemma candidate_score_defined (improved_cities : list (Z * City)) (replace_idx : Z)
    (candidate : City) :
  (forall row, In row improved_cities -> fst row <> replace_idx ->
     exists d, city_distance candidate (snd row) = Ok d) ->
  exists score, candidate_score improved_cities replace_idx candidate = Ok score.
Proof.
  unfold candidate_score. generalize PInf.
  induction improved_cities as [|r l IH]; intros acc Hall; simpl; [eauto |].
  destruct (Z.eqb_spec (fst r) replace_idx) as [Heq | Hne]; simpl.
  - apply IH. intros row Hrow. apply Hall. right. exact Hrow.
  - destruct (Hall r (or_introl eq_refl) Hne) as [d ->]. simpl.
    apply IH. intros row Hrow. apply Hall. right. exact Hrow.
Qed.

(** The loop over [all_cities] is a loop over [search_set]. *)
Lemma best_replacement_search_search_set (all_cities : list (Z * City))
    (selected_indices : gset Z) (improved_cities : list (Z * City))
    (replace_idx : Z) :
  best_replacement_search all_cities selected_indices improved_cities replace_idx
  = foldM (search_step improved_cities replace_idx)
      (search_set all_cities selected_indices) (None, Fin 0).
Proof.
  unfold best_replacement_search, search_set.
  generalize (@None (Z * City), Fin 0).
  induction all_cities as [|r l IH]; intros st; [reflexivity |].
  rewrite filter_cons. simpl foldM at 1.
  destruct (decide (fst r ∉ selected_indices)) as [Hn | Hn].
  - rewrite bool_decide_eq_false_2 by exact Hn. simpl.
    destruct (search_step improved_cities replace_idx st r); simpl;
      [apply IH | reflexivity].
  - rewrite bool_decide_eq_true_2 by (destruct (decide (fst r ∈ selected_indices)); tauto).
    simpl. apply IH.
Qed.

Lemma best_replacement_search_ok (all_cities : list (Z * City))
    (selected_indices : gset Z) (improved_cities : list (Z * City))
    (replace_idx : Z) (st : option (Z * City) * xfloat) :
  best_replacement_search all_cities selected_indices improved_cities replace_idx
  = Ok st ->
  search_result_ok all_cities selected_indices improved_cities replace_idx st.
Proof.
  unfold best_replacement_search.
  assert (Hgen : forall l st0 st',
    (forall x, In x l -> In x all_cities) ->
    search_result_ok all_cities selected_indices improved_cities replace_idx st0 ->
    foldM
      (fun (st : option (Z * City) * xfloat) (r : Z * City) =>
         if bool_decide (fst r ∈ selected_indices) then Ok st
         else search_step improved_cities replace_idx st r)
      l st0 = Ok st' ->
    search_result_ok all_cities selected_indices improved_cities replace_idx st').
  { induction l as [|r l IH]; intros st0 st' Hl Hst; simpl.
    { intros H. injection H as <-. exact Hst. }
    destruct (bool_decide (fst r ∈ selected_indices)) eqn:E; simpl.
    { apply IH; [intros x Hx; apply Hl; right; exact Hx | exact Hst]. }
    apply bool_decide_eq_false in E. unfold search_step at 1.
    destruct (candidate_score improved_cities replace_idx (snd r))
      as [score|e] eqn:Escore; simpl; [| discriminate].
    apply IH; [intros x Hx; apply Hl; right; exact Hx |].
    destruct (xlt (snd st0) score) eqn:E2; [| exact Hst].
    unfold search_result_ok. simpl.
    split; [apply Hl; left; reflexivity |]. split; [exact E |].
    split; [exact Escore |].
    unfold search_result_ok in Hst. destruct st0 as [[b|] v]; simpl in *.
    - destruct Hst as (_ & _ & _ & Hpos).
      eapply xlt_xle_trans; [exact Hpos | apply xlt_xle; exact E2].
    - subst v. exact E2. }
  apply Hgen; [auto | reflexivity].
Qed.

Lemma best_replacement_search_raises (all_cities : list (Z * City))
    (selected_indices : gset Z) (improved_cities : list (Z * City))
    (replace_idx : Z) (e : exn) :
  best_replacement_search all_cities selected_indices improved_cities replace_idx
  = Raise e ->
  e = ValueError.
Proof.
  unfold best_replacement_search. generalize (@None (Z * City), Fin 0).
  induction all_cities as [|r l IH]; intros st; simpl; [discriminate |].
  destruct (bool_decide (fst r ∈ selected_indices)); simpl; [apply IH |].
  unfold search_step at 1.
  destruct (candidate_score improved_cities replace_idx (snd r))
    as [score|e'] eqn:Escore; simpl; [apply IH |].
  intros H. injection H as <-. eapply candidate_score_raises. exact Escore.
Qed.

(** The row that wins the search is farther than [min_dist] from every row
    that stays. *)
Lemma replacement_far (all_cities : list (Z * City)) (selected_indices : gset Z)
    (improved_cities : list (Z * City)) (replace_idx : Z) (best : Z * City)
    (max_min_distance : xfloat) (min_dist : Q) :
  best_replacement_search all_cities selected_indices improved_cities replace_idx
  = Ok (Some best, max_min_distance) ->
  xlt (Fin min_dist) max_min_distance = true ->
  forall row : Z * City,
    In row improved_cities -> fst row <> replace_idx ->
    exists d,
      city_distance (snd best) (snd row) = Ok d /\ (min_dist < d)%Q.
Proof.
  intros Hbest Hbetter row Hin Hne.
  apply best_replacement_search_ok in Hbest. destruct Hbest as (_ & _ & Hv & _).
  simpl in Hv.
  destruct (candidate_score_le _ _ _ _ row Hv Hin Hne) as (d & Hd & Hle).
  exists d. split; [exact Hd |].
  pose proof (xlt_xle_trans _ _ _ Hbetter Hle) as H.
  unfold xlt in H. apply Qltb_lt in H. exact H.
Qed.

(** How a pass that ends in a replacement got there. *)
Lemma repair_iteration_replaced (all_cities : list (Z * City)) (min_distance_km : Q)
    (improved_cities : list (Z * City)) (selected_indices : gset Z)
    (improved_cities' : list (Z * City)) (selected_indices' : gset Z) :
  repair_iteration all_cities min_distance_km improved_cities selected_indices
  = Replaced improved_cities' selected_indices' ->
  exists (min_dist : Q) (i j : Z) (city1 city2 : City) (best : Z * City)
         (max_min_distance : xfloat),
    closest_pair_scan improved_cities = Ok (Fin min_dist, Some (i, j))
    /\ (min_dist < min_distance_km)%Q
    /\ loc improved_cities i = Row city1
    /\ loc improved_cities j = Row city2
    /\ best_replacement_search all_cities selected_indices improved_cities
         (removal_target (population city1) (population city2) (i, j))
       = Ok (Some best, max_min_distance)
    /\ xlt (Fin min_dist) max_min_distance = true
    /\ removal_target (population city1) (population city2) (i, j)
       ∈ selected_indices
    /\ improved_cities'
       = set_loc improved_cities
           (removal_target (population city1) (population city2) (i, j))
           (snd best)
    /\ selected_indices'
       = {[fst best]} ∪ selected_indices
           ∖ {[removal_target (population city1) (population city2) (i, j)]}.
Proof.
  unfold repair_iteration.
  destruct (closest_pair_scan improved_cities) as [[min_dist [[i j]|]]|e] eqn:Escan;
    try discriminate.
  destruct (xlt min_dist (Fin min_distance_km)) eqn:Elt; [| discriminate].
  destruct (loc improved_cities i) as [city1|rows1|] eqn:E1;
    destruct (loc improved_cities j) as [city2|rows2|] eqn:E2; try discriminate.
  destruct (best_replacement_search all_cities selected_indices improved_cities
              (removal_target (population city1) (population city2) (i, j)))
    as [[[best|] max_min_distance]|e] eqn:Eb; try discriminate.
  destruct (xlt min_dist max_min_distance) eqn:Ebetter; [| discriminate].
  destruct (bool_decide
              (removal_target (population city1) (population city2) (i, j)
               ∈ selected_indices)) eqn:Emem; [| discriminate].
  intros H. injection H as <- <-.
  destruct min_dist as [min_dist|]; [| discriminate].
  exists min_dist, i, j, city1, city2, best, max_min_distance.
  apply bool_decide_eq_true in Emem. unfold xlt in Elt. apply Qltb_lt in Elt.
  repeat split; auto.
Qed.

(** A pass that ends otherwise hands the selection back as it found it. *)
Lemma repair_iteration_converged (all_cities : list (Z * City)) (min_distance_km : Q)
    (improved_cities : list (Z * City)) (selected_indices : gset Z)
    (df : list (Z * City)) :
  repair_iteration all_cities min_distance_km improved_cities selected_indices
  = Converged df -> df = improved_cities.
Proof.
  unfold repair_iteration.
  destruct (closest_pair_scan improved_cities) as [[min_dist [[i j]|]]|e];
    try congruence.
  destruct (xlt min_dist (Fin min_distance_km)); [| congruence].
  destruct (loc improved_cities i); destruct (loc improved_cities j);
    try discriminate.
  destruct (best_replacement_search _ _ _ _) as [[[best|] v]|e]; try discriminate.
  destruct (xlt min_dist v); [| discriminate].
  destruct (bool_decide _); discriminate.
Qed.

Lemma repair_iteration_stalled (all_cities : list (Z * City)) (min_distance_km : Q)
    (improved_cities : list (Z * City)) (selected_indices : gset Z)
    (df : list (Z * City)) :
  repair_iteration all_cities min_distance_km improved_cities selected_indices
  = Stalled df -> df = improved_cities.
Proof.
  unfold repair_iteration.
  destruct (closest_pair_scan improved_cities) as [[min_dist [[i j]|]]|e];
    try discriminate.
  destruct (xlt min_dist (Fin min_distance_km)); [| discriminate].
  destruct (loc improved_cities i); destruct (loc improved_cities j);
    try discriminate.
  destruct (best_replacement_search _ _ _ _) as [[[best|] v]|e];
    try discriminate; try congruence.
  destruct (xlt min_dist v); [| congruence].
  destruct (bool_decide _); discriminate.
Qed.

(** On a selection that is already separated the pass stops at once. *)
Lemma repair_iteration_separated (all_cities : list (Z * City)) (min_distance_km : Q)
    (improved_cities : list (Z * City)) (selected_indices : gset Z) :
  separated min_distance_km improved_cities ->
  repair_iteration all_cities min_distance_km improved_cities selected_indices
  = Converged improved_cities.
Proof.
  intros Hsep. unfold repair_iteration.
  destruct (closest_pair_scan_defined improved_cities) as [st Hscan].
  { intros r1 r2 H1 H2 Hlt. destruct (Hsep r1 r2 H1 H2) as (d & Hd & _); [lia |].
    exists d. exact Hd. }
  rewrite Hscan.
  destruct (closest_pair_scan_first _ _ Hscan)
    as [[_ ->] | (l1 & [r1 r2] & l2 & d & Hl & Hp & -> & _ & _)]; [reflexivity |].
  unfold pair_labels. simpl fst. simpl snd.
  assert (Hin : In (r1, r2) (scanned_pairs improved_cities))
    by (rewrite Hl; apply in_or_app; right; left; reflexivity).
  apply in_scanned_pairs in Hin as (H1 & H2 & Hlt).
  destruct (Hsep r1 r2 H1 H2) as (d' & Hd' & Hge); [simpl in Hlt; lia |].
  unfold pair_distance in Hp. simpl in Hp. rewrite Hp in Hd'. injection Hd' as <-.
  replace (xlt (Fin d) (Fin min_distance_km)) with false; [reflexivity |].
  symmetry. unfold xlt. apply Qltb_ge. exact Hge.
Qed.

(** A pass raises nothing but [KeyError] and [ValueError]. *)
Lemma repair_iteration_aborted (all_cities : list (Z * City)) (min_distance_km : Q)
    (improved_cities : list (Z * City)) (selected_indices : gset Z) (e : exn) :
  repair_iteration all_cities min_distance_km improved_cities selected_indices
  = Aborted e -> e = KeyError \/ e = ValueError.
Proof.
  unfold repair_iteration.
  destruct (closest_pair_scan improved_cities) as [[min_dist [[i j]|]]|e0] eqn:Escan;
    try discriminate.
  - destruct (xlt min_dist (Fin min_distance_km)); [| discriminate].
    destruct (loc improved_cities i); destruct (loc improved_cities j);
      try (intros H; injection H as <-; auto; fail).
    destruct (best_replacement_search _ _ _ _) as [[[best|] v]|e0] eqn:Eb;
      try discriminate.
    + destruct (xlt min_dist v); [| discriminate].
      destruct (bool_decide _); [discriminate |].
      intros H. injection H as <-. auto.
    + intros H. injection H as <-. right.
      eapply best_replacement_search_raises. exact Eb.
  - intros H. injection H as <-. right.
    eapply closest_pair_scan_raises. exact Escan.
Qed.

(** A run of the loop that ends raises [KeyError] or [ValueError], or
    returns a selection with the labels, hence the size, it started from. *)
Lemma repair_loop_outcome (all_cities : list (Z * City)) (min_distance_km : Q)
    (fuel : nat) :
  forall (improved_cities : list (Z * City)) (selected_indices : gset Z)
         (r : result (list (Z * City))),
    repair_loop fuel all_cities min_distance_km improved_cities selected_indices
    = Some r ->
    r = Raise KeyError \/ r = Raise ValueError
    \/ exists out, r = Ok out /\ map fst out = map fst improved_cities.
Proof.
  induction fuel as [|fuel IH]; intros improved_cities selected_indices r;
    simpl; [discriminate |].
  destruct (repair_iteration all_cities min_distance_km improved_cities
              selected_indices) as [df | df | df s | e] eqn:Estep.
  - apply repair_iteration_converged in Estep. subst df.
    intros H. injection H as <-. right. right. eauto.
  - apply repair_iteration_stalled in Estep. subst df.
    intros H. injection H as <-. right. right. eauto.
  - intros Hloop.
    apply IH in Hloop as [-> | [-> | (out & -> & Hl)]]; [auto | auto |].
    right. right. exists out. split; [reflexivity |].
    apply repair_iteration_replaced in Estep
      as (min_dist & i & j & city1 & city2 & best & v
          & _ & _ & _ & _ & _ & _ & _ & -> & _).
    rewrite Hl. apply set_loc_labels.
  - apply repair_iteration_aborted in Estep.
    intros H. injection H as <-. destruct Estep as [-> | ->]; auto.
Qed.

(** More fuel does not change an answer. *)
Lemma repair_loop_fuel_mono (all_cities : list (Z * City)) (min_distance_km : Q)
    (fuel : nat) :
  forall (improved_cities : list (Z * City)) (selected_indices : gset Z)
         (r : result (list (Z * City))) (extra : nat),
    repair_loop fuel all_cities min_distance_km improved_cities selected_indices
    = Some r ->
    repair_loop (fuel + extra) all_cities min_distance_km improved_cities
      selected_indices = Some r.
Proof.
  induction fuel as [|fuel IH]; intros improved_cities selected_indices r extra;
    simpl; [discriminate |].
  destruct (repair_iteration all_cities min_distance_km improved_cities
              selected_indices); auto.
Qed.

End Repair.
(** ** Termination of the repair loop *)

Lemma farther_count_mono (values : list Q) (v v' : Q) :
  (v <= v')%Q -> (farther_count values v' <= farther_count values v)%nat.
Proof.
  intros Hle. unfold farther_count.
  induction values as [|w values IH]; simpl; [lia |].
  destruct (Qltb v' w) eqn:E'.
  - apply Qltb_lt in E'.
    assert (E : Qltb v w = true)
      by (apply Qltb_lt; eapply Qle_lt_trans; eassumption).
    rewrite E. simpl. lia.
  - destruct (Qltb v w); simpl; lia.
Qed.

Lemma farther_count_lt (values : list Q) (v v' : Q) :
  (v < v')%Q -> In v' values ->
  (farther_count values v' < farther_count values v)%nat.
Proof.
  intros Hlt. unfold farther_count.
  induction values as [|w values IH]; simpl; [tauto |].
  intros [-> | Hin].
  - assert (E' : Qltb v' v' = false) by (apply Qltb_ge; apply Qle_refl).
    assert (E : Qltb v v' = true) by (apply Qltb_lt; exact Hlt).
    rewrite E', E. simpl.
    pose proof (farther_count_mono values v v' (Qlt_le_weak _ _ Hlt)) as H.
    unfold farther_count in H. lia.
  - specialize (IH Hin). destruct (Qltb v' w) eqn:E'.
    + apply Qltb_lt in E'.
      assert (E : Qltb v w = true)
        by (apply Qltb_lt; eapply Qlt_trans; eassumption).
      rewrite E. simpl. lia.
    + destruct (Qltb v w); simpl; lia.
Qed.

Lemma scanned_pairs_inner (label : Z) (row : City) (r1 : Z * City)
    (inner : list (Z * City)) :
  map (pair (assigned label row r1))
    (List.filter (fun r2 : Z * City => negb (fst (assigned label row r1) >=? fst r2))
       (map (assigned label row) inner))
  = map (assigned_pair label row)
      (map (pair r1)
         (List.filter (fun r2 : Z * City => negb (fst r1 >=? fst r2)) inner)).
Proof.
  rewrite assigned_label.
  induction inner as [|r2 inner IH]; simpl; [reflexivity |].
  rewrite assigned_label. destruct (fst r1 >=? fst r2); simpl; rewrite IH;
    reflexivity.
Qed.

(** The assignment changes the rows of the scanned pairs, not which pairs
    are scanned. *)
Lemma scanned_pairs_set_loc (improved_cities : list (Z * City)) (label : Z)
    (row : City) :
  scanned_pairs (set_loc improved_cities label row)
  = map (assigned_pair label row) (scanned_pairs improved_cities).
Proof.
  unfold scanned_pairs, set_loc.
  generalize improved_cities at 1 3 as inner.
  induction improved_cities as [|r1 l IH]; intros inner; simpl; [reflexivity |].
  rewrite map_app, IH. f_equal. apply scanned_pairs_inner.
Qed.

Section Weights.

Context {P : Type}.
Variables (f g : P -> nat) (changed : P -> bool) (base w0 : nat).

Lemma changed_weights_bound (ps : list P) :
  (forall p, In p ps -> changed p = false -> g p = f p) ->
  (forall p, In p ps -> changed p = true -> (base * g p <= w0)%nat) ->
  (base * list_sum (map g ps)
   <= base * list_sum (map (fun p => if changed p then 0 else f p) ps)
      + length ps * w0)%nat.
Proof.
  induction ps as [|p ps IH]; intros Hsame Hless; simpl; [lia |].
  assert (IH' := IH (fun q Hq => Hsame q (or_intror Hq))
                    (fun q Hq => Hless q (or_intror Hq))).
  destruct (changed p) eqn:E.
  - pose proof (Hless p (or_introl eq_refl) E). lia.
  - pose proof (Hsame p (or_introl eq_refl) E). lia.
Qed.

Lemma unchanged_weights_bound (ps : list P) (p0 : P) :
  In p0 ps -> changed p0 = true -> (w0 <= f p0)%nat ->
  (list_sum (map (fun p => if changed p then 0 else f p) ps) + w0
   <= list_sum (map f ps))%nat.
Proof.
  induction ps as [|p ps IH]; simpl; [tauto |].
  intros [-> | Hin] Hc Hw.
  - rewrite Hc.
    assert (list_sum (map (fun p => if changed p then 0 else f p) ps)
            <= list_sum (map f ps))%nat.
    { clear. induction ps as [|q ps IH]; simpl; [lia |].
      destruct (changed q); lia. }
    lia.
  - specialize (IH Hin Hc Hw). destruct (changed p); lia.
Qed.

(** Fewer than [base] weights, some of them made at least [base] times
    smaller than [w0] and the others kept, one of the former having been at
    least [w0]: the sum gets smaller. *)
Lemma weights_decrease (ps : list P) (p0 : P) :
  (0 < w0)%nat -> (length ps < base)%nat ->
  (forall p, In p ps -> changed p = false -> g p = f p) ->
  (forall p, In p ps -> changed p = true -> (base * g p <= w0)%nat) ->
  In p0 ps -> changed p0 = true -> (w0 <= f p0)%nat ->
  (list_sum (map g ps) < list_sum (map f ps))%nat.
Proof.
  intros Hw Hlen Hsame Hless Hin Hc Hp0.
  pose proof (changed_weights_bound ps Hsame Hless) as H1.
  pose proof (unchanged_weights_bound ps p0 Hin Hc Hp0) as H2.
  nia.
Qed.

End Weights.

Section Termination.

Context {ext : Externals}.

Hypothesis haversine_distance_sym :
  forall la1 lo1 la2 lo2 d : Q,
    haversine_distance la1 lo1 la2 lo2 = Some d ->
    exists d', haversine_distance la2 lo2 la1 lo1 = Some d' /\ d' == d.

Lemma city_distance_sym (c1 c2 : City) (d : Q) :
  city_distance c1 c2 = Ok d ->
  exists d', city_distance c2 c1 = Ok d' /\ d' == d.
Proof.
  unfold city_distance.
  destruct (haversine_distance (lat c1) (lng c1) (lat c2) (lng c2)) as [d0|] eqn:E;
    [| discriminate].
  intros H. injection H as <-.
  destruct (haversine_distance_sym _ _ _ _ _ E) as (d' & -> & Hd').
  exists d'. auto.
Qed.

Lemma distance_value_defined (c1 c2 : City) (d : Q) :
  city_distance c1 c2 = Ok d -> distance_value c1 c2 = d.
Proof. unfold distance_value. intros ->. reflexivity. Qed.

Lemma in_distance_values (cities : list City) (c1 c2 : City) :
  In c1 cities -> In c2 cities -> In (distance_value c1 c2) (distance_values cities).
Proof.
  intros H1 H2. unfold distance_values. apply in_flat_map.
  exists c1. split; [exact H1 | apply in_map; exact H2].
Qed.

(** An accepted replacement makes the selection less crowded. *)
Lemma replaced_crowding_decreases (base : nat) (cities : list City)
    (all_cities : list (Z * City)) (min_distance_km : Q)
    (improved_cities : list (Z * City)) (selected_indices : gset Z)
    (improved_cities' : list (Z * City)) (selected_indices' : gset Z) :
  repair_iteration all_cities min_distance_km improved_cities selected_indices
  = Replaced improved_cities' selected_indices' ->
  incl (map snd improved_cities) cities ->
  incl (map snd all_cities) cities ->
  (length (scanned_pairs improved_cities) < base)%nat ->
  (crowding base (distance_values cities) improved_cities'
   < crowding base (distance_values cities) improved_cities)%nat.
Proof.
  intros Hstep Hsel Hpool Hbase.
  apply repair_iteration_replaced in Hstep
    as (min_dist & i & j & city1 & city2 & best & v
        & Hscan & Hviol & Hc1 & Hc2 & Hbest & Hbetter & Hmem & -> & ->).
  set (replace_idx := removal_target (population city1) (population city2) (i, j))
    in *.
  assert (Hidx : replace_idx = i \/ replace_idx = j).
  { unfold replace_idx, removal_target.
    destruct (population city1 <? population city2); simpl; auto. }
  pose proof (replacement_far _ _ _ _ _ _ _ Hbest Hbetter) as Hfar.
  assert (Hbestin : In (snd best) cities).
  { apply Hpool. apply in_map.
    apply best_replacement_search_ok in Hbest. destruct Hbest as (Hin & _).
    exact Hin. }
  destruct (closest_pair_scan_first _ _ Hscan)
    as [[_ H] | (l1 & p0 & l2 & d0 & Hl & Hp0 & H & _ & _)]; [discriminate |].
  unfold pair_labels in H. injection H as Hd Hi Hj. subst d0.
  assert (Hv0 : pair_value p0 = min_dist)
    by (apply distance_value_defined; exact Hp0).
  unfold crowding. rewrite scanned_pairs_set_loc, map_map.
  set (changed := fun p : (Z * City) * (Z * City) =>
                    (fst (fst p) =? replace_idx) || (fst (snd p) =? replace_idx)).
  apply (weights_decrease _ _ changed base
           (pair_weight base (distance_values cities) p0) _ p0).
  - unfold pair_weight. apply Nat.neq_0_lt_0, Nat.pow_nonzero. lia.
  - exact Hbase.
  - intros [r1 r2] _ Hc. unfold changed in Hc. simpl in Hc.
    apply orb_false_iff in Hc as [E1 E2].
    unfold assigned_pair, assigned. simpl. rewrite E1, E2. reflexivity.
  - intros [r1 r2] Hin Hc. apply in_scanned_pairs in Hin as (H1 & H2 & Hlt).
    unfold pair_weight. rewrite <- Nat.pow_succ_r'.
    apply Nat.pow_le_mono_r; [lia |]. apply Nat.le_succ_l.
    rewrite Hv0. unfold changed in Hc. simpl in Hc.
    unfold assigned_pair, assigned, pair_value. simpl.
    destruct (Z.eqb_spec (fst r1) replace_idx) as [E1 | E1];
      destruct (Z.eqb_spec (fst r2) replace_idx) as [E2 | E2];
      simpl in *; try lia; try discriminate.
    + destruct (Hfar r2 H2 E2) as (d & Hd & Hd0).
      rewrite (distance_value_defined _ _ _ Hd).
      apply farther_count_lt; [exact Hd0 |].
      rewrite <- (distance_value_defined _ _ _ Hd).
      apply in_distance_values; [exact Hbestin |].
      apply Hsel. apply in_map. exact H2.
    + destruct (Hfar r1 H1 E1) as (d & Hd & Hd0).
      destruct (city_distance_sym _ _ _ Hd) as (d' & Hd' & Heq).
      rewrite (distance_value_defined _ _ _ Hd').
      apply farther_count_lt; [rewrite Heq; exact Hd0 |].
      rewrite <- (distance_value_defined _ _ _ Hd').
      apply in_distance_values; [| exact Hbestin].
      apply Hsel. apply in_map. exact H1.
  - rewrite Hl. apply in_or_app. right. left. reflexivity.
  - unfold changed.
    apply orb_true_iff. destruct Hidx as [-> | ->];
      [left | right]; apply Z.eqb_eq; congruence.
  - apply Nat.le_refl.
Qed.

Lemma replaced_rows_from (all_cities : list (Z * City)) (min_distance_km : Q)
    (improved_cities : list (Z * City)) (selected_indices : gset Z)
    (improved_cities' : list (Z * City)) (selected_indices' : gset Z)
    (cities : list City) :
  repair_iteration all_cities min_distance_km improved_cities selected_indices
  = Replaced improved_cities' selected_indices' ->
  incl (map snd improved_cities) cities ->
  incl (map snd all_cities) cities ->
  map fst improved_cities' = map fst improved_cities
  /\ incl (map snd improved_cities') cities
  /\ length (scanned_pairs improved_cities')
     = length (scanned_pairs improved_cities).
Proof.
  intros Hstep Hsel Hpool.
  apply repair_iteration_replaced in Hstep
    as (min_dist & i & j & city1 & city2 & best & v
        & Hscan & Hviol & Hc1 & Hc2 & Hbest & Hbetter & Hmem & -> & ->).
  split; [apply set_loc_labels |]. split.
  - intros c Hc. apply in_map_iff in Hc as (row & <- & Hrow).
    apply in_set_loc in Hrow as [[Hrow _] | ->].
    + apply Hsel. apply in_map. exact Hrow.
    + simpl. apply Hpool. apply in_map.
      apply best_replacement_search_ok in Hbest. destruct Hbest as (Hin & _).
      exact Hin.
  - rewrite scanned_pairs_set_loc. apply length_map.
Qed.

(** The repair loop ends: as much fuel as the selection is crowded, and one
    more, is enough. *)
Lemma repair_loop_ends_within (base : nat) (cities : list City)
    (all_cities : list (Z * City)) (min_distance_km : Q) (fuel : nat) :
  forall (improved_cities : list (Z * City)) (selected_indices : gset Z),
    incl (map snd improved_cities) cities ->
    incl (map snd all_cities) cities ->
    (length (scanned_pairs improved_cities) < base)%nat ->
    (crowding base (distance_values cities) improved_cities < fuel)%nat ->
    exists r,
      repair_loop fuel all_cities min_distance_km improved_cities
        selected_indices = Some r.
Proof.
  induction fuel as [|fuel IH]; intros improved_cities selected_indices
    Hsel Hpool Hbase Hfuel; [lia |].
  simpl.
  destruct (repair_iteration all_cities min_distance_km improved_cities
              selected_indices) as [df | df | df s | e] eqn:Estep; eauto.
  pose proof (replaced_crowding_decreases base cities _ _ _ _ _ _
                Estep Hsel Hpool Hbase) as Hdec.
  destruct (replaced_rows_from _ _ _ _ _ _ cities Estep Hsel Hpool)
    as (_ & Hsel' & Hlen).
  apply IH; auto; lia.
Qed.

Theorem repair_loop_ends (all_cities : list (Z * City)) (min_distance_km : Q)
    (improved_cities : list (Z * City)) (selected_indices : gset Z) :
  exists fuel r,
    repair_loop fuel all_cities min_distance_km improved_cities selected_indices
    = Some r.
Proof.
  set (cities := map snd improved_cities ++ map snd all_cities).
  set (base := S (length (scanned_pairs improved_cities))).
  exists (S (crowding base (distance_values cities) improved_cities)).
  apply (repair_loop_ends_within base cities).
  - intros c Hc. apply in_or_app. left. exact Hc.
  - intros c Hc. apply in_or_app. right. exact Hc.
  - unfold base. lia.
  - lia.
Qed.

End Termination.
(** ** What the repair loop keeps *)

Section RepairInvariant.

Context {ext : Externals}.

Hypothesis haversine_distance_self :
  forall la lo d : Q, haversine_distance la lo la lo = Some d -> d == 0.

(** A row that wins the search is none of the rows that stay. *)
Lemma replacement_is_new (all_cities : list (Z * City))
    (selected_indices : gset Z) (improved_cities : list (Z * City))
    (replace_idx : Z) (best : Z * City) (max_min_distance : xfloat) :
  best_replacement_search all_cities selected_indices improved_cities replace_idx
  = Ok (Some best, max_min_distance) ->
  forall row : Z * City,
    In row improved_cities -> fst row <> replace_idx -> snd row <> snd best.
Proof.
  intros Hbest row Hin Hne Heq.
  apply best_replacement_search_ok in Hbest.
  destruct Hbest as (_ & _ & Hv & Hpos). simpl in Hv, Hpos.
  destruct (candidate_score_le _ _ _ _ row Hv Hin Hne) as (d & Hd & Hle).
  pose proof (xlt_xle_trans _ _ _ Hpos Hle) as H.
  unfold xlt in H. apply Qltb_lt in H.
  rewrite Heq in Hd. unfold city_distance in Hd.
  destruct (haversine_distance _ _ _ _) as [d0|] eqn:E; [| discriminate].
  injection Hd as ->. apply haversine_distance_self in E.
  rewrite E in H. apply (Qlt_irrefl 0). exact H.
Qed.

(** An accepted replacement keeps the labels, hence the size, and keeps
    the rows of the selection rows of the pool at pairwise different
    positions. *)
Lemma replaced_invariant (all_cities : list (Z * City)) (min_distance_km : Q)
    (improved_cities : list (Z * City)) (selected_indices : gset Z)
    (improved_cities' : list (Z * City)) (selected_indices' : gset Z)
    (positions : list nat) :
  repair_iteration all_cities min_distance_km improved_cities selected_indices
  = Replaced improved_cities' selected_indices' ->
  List.NoDup (map fst improved_cities) ->
  List.NoDup positions -> rows_at all_cities improved_cities positions ->
  map fst improved_cities' = map fst improved_cities
  /\ exists positions',
       List.NoDup positions' /\ rows_at all_cities improved_cities' positions'.
Proof.
  intros Hstep Hl Hp Hrows.
  apply repair_iteration_replaced in Hstep
    as (min_dist & i & j & city1 & city2 & best & v
        & Hscan & Hviol & Hc1 & Hc2 & Hbest & Hbetter & Hmem & -> & ->).
  split; [apply set_loc_labels |].
  pose proof (best_replacement_search_ok _ _ _ _ _ Hbest) as (Hin & _).
  simpl in Hin.
  apply In_nth_error in Hin as [q Hq]. destruct best as [label_q row].
  destruct (set_loc_rows_at all_cities improved_cities positions
              (removal_target (population city1) (population city2) (i, j))
              row q label_q Hrows Hl Hp Hq)
    as (positions' & Hrows' & Hnd' & _).
  { apply (replacement_is_new _ _ _ _ _ _ Hbest). }
  exists positions'. auto.
Qed.

Lemma repair_loop_invariant (all_cities : list (Z * City)) (min_distance_km : Q)
    (fuel : nat) :
  forall (improved_cities : list (Z * City)) (selected_indices : gset Z)
         (positions : list nat) (out : list (Z * City)),
    repair_loop fuel all_cities min_distance_km improved_cities selected_indices
    = Some (Ok out) ->
    List.NoDup (map fst improved_cities) ->
    List.NoDup positions -> rows_at all_cities improved_cities positions ->
    map fst out = map fst improved_cities
    /\ exists positions',
         List.NoDup positions' /\ rows_at all_cities out positions'.
Proof.
  induction fuel as [|fuel IH];
    intros improved_cities selected_indices positions out; simpl;
    [discriminate |].
  destruct (repair_iteration all_cities min_distance_km improved_cities
              selected_indices) as [df | df | df s | e] eqn:Estep.
  - apply repair_iteration_converged in Estep. subst df.
    intros H. injection H as <-. eauto.
  - apply repair_iteration_stalled in Estep. subst df.
    intros H. injection H as <-. eauto.
  - intros Hloop Hl Hp Hrows.
    destruct (replaced_invariant _ _ _ _ _ _ _ Estep Hl Hp Hrows)
      as (Hl' & positions' & Hp' & Hrows').
    destruct (IH df s positions' out Hloop) as (Hl'' & Hout); auto;
      [rewrite Hl'; exact Hl |].
    split; [congruence | exact Hout].
  - discriminate.
Qed.

End RepairInvariant.

(** ** The greedy rounds *)

Lemma existsb_eqb_In (j : nat) (l : list nat) :
  existsb (Nat.eqb j) l = true <-> In j l.
Proof.
  rewrite existsb_exists. split.
  - intros (x & Hx & Heq). apply Nat.eqb_eq in Heq. subst x. exact Hx.
  - intros H. exists j. split; [exact H | apply Nat.eqb_refl].
Qed.

Lemma nth_error_seq_lt (n j : nat) : (j < n)%nat -> nth_error (seq 0 n) j = Some j.
Proof.
  intros H.
  assert (Hj : (j < length (seq 0 n))%nat) by (rewrite length_seq; exact H).
  rewrite (nth_error_nth' (seq 0 n) 0%nat Hj). rewrite seq_nth by exact H.
  reflexivity.
Qed.

Section GreedyRounds.

Context {ext : Externals}.

Hypothesis distances_km_nonneg : forall a b : Q * Q, (0 <= distances_km a b)%Q.

Lemma min_distance_entry_selected (coords_rad : list (Q * Q))
    (selected_indices : list nat) (selected_coords : list (Q * Q)) (j : nat) :
  In j selected_indices ->
  min_distance_entry coords_rad selected_indices selected_coords j = Ok (-1)%Q.
Proof.
  intros H. unfold min_distance_entry.
  apply existsb_eqb_In in H. rewrite H. reflexivity.
Qed.

Lemma min_distance_entry_unselected (coords_rad : list (Q * Q))
    (selected_indices : list nat) (selected_coords : list (Q * Q)) (j : nat) :
  ~ In j selected_indices -> (j < length coords_rad)%nat -> selected_coords <> [] ->
  exists y, min_distance_entry coords_rad selected_indices selected_coords j = Ok y
            /\ (0 <= y)%Q.
Proof.
  intros Hn Hj Hsc. unfold min_distance_entry.
  destruct (existsb (Nat.eqb j) selected_indices) eqn:E;
    [apply existsb_eqb_In in E; contradiction |].
  destruct (index_ok coords_rad j Hj) as [c ->]. simpl.
  destruct selected_coords as [|s sc]; [congruence |].
  eexists. split; [reflexivity |].
  apply fold_Qmin_lower; [apply distances_km_nonneg |].
  apply List.Forall_forall. intros y Hy. apply in_map_iff in Hy as (s' & <- & _).
  apply distances_km_nonneg.
Qed.

Lemma min_distance_entry_score (coords_rad : list (Q * Q))
    (selected_indices : list nat) (selected_coords : list (Q * Q)) (j : nat) :
  mapM (index coords_rad) selected_indices = Ok selected_coords ->
  ~ In j selected_indices ->
  min_distance_entry coords_rad selected_indices selected_coords j
  = position_score coords_rad selected_indices j.
Proof.
  intros Hsc Hn. unfold min_distance_entry, position_score. rewrite Hsc. simpl.
  destruct (existsb (Nat.eqb j) selected_indices) eqn:E; [| reflexivity].
  apply existsb_eqb_In in E. contradiction.
Qed.

(** A round on a selection that leaves a position free appends a free
    position, and one whose score no free position exceeds. *)
Lemma greedy_round_ok (coords_rad : list (Q * Q)) (n_valid : nat)
    (selected_indices : list nat) :
  length coords_rad = n_valid ->
  selected_indices <> [] ->
  (forall j, In j selected_indices -> (j < n_valid)%nat) ->
  List.NoDup selected_indices ->
  (length selected_indices < n_valid)%nat ->
  exists k,
    greedy_round coords_rad n_valid selected_indices = Ok (selected_indices ++ [k])
    /\ (k < n_valid)%nat /\ ~ In k selected_indices
    /\ exists score_k,
         position_score coords_rad selected_indices k = Ok score_k
         /\ forall j, (j < n_valid)%nat -> ~ In j selected_indices ->
              exists score_j,
                position_score coords_rad selected_indices j = Ok score_j
                /\ (score_j <= score_k)%Q
                /\ ((j < k)%nat -> (score_j < score_k)%Q).
Proof.
  intros Hlen Hne Hlt Hnd Hfree. unfold greedy_round.
  destruct (mapM_ok (index coords_rad) selected_indices) as [sc Hsc].
  { intros j Hj. apply index_ok. rewrite Hlen. apply Hlt. exact Hj. }
  rewrite Hsc. simpl.
  assert (Hscne : sc <> []).
  { destruct (mapM_nth_error _ _ _ Hsc) as [Hl _].
    destruct sc; [| congruence]. destruct selected_indices; simpl in *; congruence. }
  destruct (mapM_ok (min_distance_entry coords_rad selected_indices sc)
              (seq 0 n_valid)) as [mds Hmds].
  { intros j Hj. apply in_seq in Hj.
    destruct (in_dec Nat.eq_dec j selected_indices) as [Hin | Hnin].
    - eexists. apply min_distance_entry_selected. exact Hin.
    - destruct (min_distance_entry_unselected coords_rad selected_indices sc j)
        as (y & Hy & _); [exact Hnin | lia | exact Hscne |]. eauto. }
  rewrite Hmds. simpl.
  destruct (mapM_nth_error _ _ _ Hmds) as [Hmlen Hmnth].
  rewrite length_seq in Hmlen.
  destruct (np_argmax_ok mds) as [k Hk].
  { destruct mds; [| congruence]. simpl in Hmlen. lia. }
  rewrite Hk. simpl. exists k.
  destruct (np_argmax_first mds k Hk) as (a1 & x & a2 & Hsplit & Hk1 & Ha1 & Ha2).
  assert (Hkn : (k < n_valid)%nat).
  { rewrite <- Hmlen, Hsplit, length_app. simpl. lia. }
  assert (Hmax : forall y, In y mds -> (y <= x)%Q).
  { intros y Hy. rewrite Hsplit in Hy. apply in_app_or in Hy as [Hy | [<- | Hy]].
    - rewrite List.Forall_forall in Ha1. apply Qlt_le_weak, Ha1, Hy.
    - apply Qle_refl.
    - rewrite List.Forall_forall in Ha2. apply Ha2, Hy. }
  assert (Hentry_k : min_distance_entry coords_rad selected_indices sc k = Ok x).
  { destruct (Hmnth k k (nth_error_seq_lt _ _ Hkn)) as (y & Hy & Hentry).
    rewrite Hsplit, nth_error_app2, Hk1, Nat.sub_diag in Hy by lia.
    simpl in Hy. injection Hy as <-. exact Hentry. }
  assert (Hfree_le : forall j, (j < n_valid)%nat -> ~ In j selected_indices ->
            exists y, min_distance_entry coords_rad selected_indices sc j = Ok y
                      /\ (0 <= y)%Q /\ (y <= x)%Q
                      /\ ((j < k)%nat -> (y < x)%Q)).
  { intros j Hj Hjn.
    destruct (min_distance_entry_unselected coords_rad selected_indices sc j)
      as (y & Hy & Hpos); [exact Hjn | lia | exact Hscne |].
    destruct (Hmnth j j (nth_error_seq_lt _ _ Hj)) as (y' & Hy' & Hentry).
    rewrite Hy in Hentry. injection Hentry as <-.
    exists y. split; [exact Hy |]. split; [exact Hpos |].
    split; [apply Hmax; eapply nth_error_In; exact Hy' |].
    intros Hjk. rewrite Hsplit, nth_error_app1 in Hy' by lia.
    apply nth_error_In in Hy'. rewrite List.Forall_forall in Ha1.
    apply Ha1. exact Hy'. }
  assert (Hknew : ~ In k selected_indices).
  { intros Hin.
    assert (Hx : x = (-1)%Q).
    { rewrite min_distance_entry_selected in Hentry_k by exact Hin. congruence. }
    assert (Hall : incl (seq 0 n_valid) selected_indices).
    { intros j Hj. apply in_seq in Hj.
      destruct (in_dec Nat.eq_dec j selected_indices) as [Hjin | Hjn];
        [exact Hjin |].
      exfalso. destruct (Hfree_le j) as (y & _ & Hpos & Hle & _);
        [lia | exact Hjn |].
      rewrite Hx in Hle.
      assert (H01 : (-1 < 0)%Q) by reflexivity.
      apply (Qlt_not_le _ _ H01). eapply Qle_trans; eassumption. }
    apply NoDup_incl_length in Hall; [| apply seq_NoDup].
    rewrite length_seq in Hall. lia. }
  split; [reflexivity |]. split; [exact Hkn |]. split; [exact Hknew |].
  exists x. split.
  - rewrite <- (min_distance_entry_score _ _ sc) by assumption. exact Hentry_k.
  - intros j Hj Hjn. destruct (Hfree_le j Hj Hjn) as (y & Hy & _ & Hle & Hlt').
    exists y. split; [| split; [exact Hle | exact Hlt']].
    rewrite <- (min_distance_entry_score _ _ sc) by assumption. exact Hy.
Qed.

(** The rounds add one free position each, as long as there is one. *)
Lemma greedy_rounds_ok (coords_rad : list (Q * Q)) (n_valid : nat) (rounds : nat) :
  forall selected_indices : list nat,
    length coords_rad = n_valid ->
    selected_indices <> [] ->
    (forall j, In j selected_indices -> (j < n_valid)%nat) ->
    List.NoDup selected_indices ->
    (length selected_indices + rounds <= n_valid)%nat ->
    exists selected_indices',
      greedy_rounds rounds coords_rad n_valid selected_indices
      = Ok selected_indices'
      /\ (forall j, In j selected_indices' -> (j < n_valid)%nat)
      /\ List.NoDup selected_indices'
      /\ length selected_indices' = (length selected_indices + rounds)%nat.
Proof.
  induction rounds as [|rounds IH]; intros selected_indices Hlen Hne Hlt Hnd Hroom;
    simpl.
  - exists selected_indices. rewrite Nat.add_0_r. auto.
  - destruct (greedy_round_ok coords_rad n_valid selected_indices)
      as (k & Hround & Hk & Hfresh & _); auto; [lia |].
    rewrite Hround. simpl.
    destruct (IH (selected_indices ++ [k])) as (sel' & Hsel' & H1 & H2 & H3); auto.
    + destruct selected_indices; discriminate.
    + intros j Hj. apply in_app_or in Hj as [Hj | [<- | []]]; auto.
    + apply List.NoDup_app; [exact Hnd | constructor; [intros [] | constructor] |].
      intros j Hj [<- | []]. contradiction.
    + rewrite length_app. simpl. lia.
    + exists sel'. rewrite length_app in H3. simpl in H3.
      repeat split; auto. lia.
Qed.

End GreedyRounds.

(** ** The greedy part of [select_dispersed_cities] *)

Section GreedySelection.

Context {ext : Externals}.

Variable cities_df : list (Z * RawCity).

Hypothesis sort_values_perm :
  Permutation (sort_values (dropna cities_df)) (dropna cities_df).

Hypothesis distances_km_nonneg : forall a b : Q * Q, (0 <= distances_km a b)%Q.

(** With at least one row that has coordinates the greedy part does not
    raise; it hands over the sorted pool and an initial selection of
    [max 1 (min n_cities (len valid_cities))] rows, labelled afresh, which
    the pool has at pairwise different positions. *)
Lemma greedy_selection_ok (n_cities : Z) :
  dropna cities_df <> [] ->
  exists selected_cities positions,
    greedy_selection cities_df n_cities
    = Ok (sort_values (dropna cities_df), selected_cities)
    /\ Z.of_nat (length selected_cities)
       = Z.max 1 (Z.min n_cities (Z.of_nat (length (dropna cities_df))))
    /\ List.NoDup (map fst selected_cities)
    /\ List.NoDup positions
    /\ rows_at (sort_values (dropna cities_df)) selected_cities positions.
Proof.
  intros Hne. unfold greedy_selection.
  set (valid_cities := dropna cities_df) in *.
  set (n := if Z.of_nat (length valid_cities) <? n_cities
            then Z.of_nat (length valid_cities) else n_cities).
  pose proof (Permutation_length sort_values_perm) as Hslen.
  fold valid_cities in Hslen.
  assert (Hpos : (1 <= length valid_cities)%nat)
    by (destruct valid_cities; [congruence | simpl; lia]).
  destruct (greedy_rounds_ok distances_km_nonneg
              (map (fun r : Z * City => coords_of (snd r)) valid_cities)
              (length (sort_values valid_cities)) (Z.to_nat (n - 1)) [0%nat])
    as (positions & Hrounds & Hlt & Hnd & Hlen).
  { rewrite length_map. congruence. }
  { discriminate. }
  { intros j [<- | []]. lia. }
  { constructor; [intros [] | constructor]. }
  { simpl. subst n. destruct (Z.ltb_spec (Z.of_nat (length valid_cities)) n_cities); lia. }
  rewrite Hrounds. simpl.
  destruct (mapM_ok (index (sort_values valid_cities)) positions) as [rows Hrows].
  { intros j Hj. apply index_ok. apply Hlt. exact Hj. }
  unfold iloc. rewrite Hrows. simpl.
  exists (reset_index rows), positions.
  destruct (iloc_incl _ _ _ Hrows) as [_ Hrlen].
  split; [reflexivity |]. split; [| split; [| split]].
  - rewrite reset_index_length, Hrlen, Hlen. simpl. subst n.
    destruct (Z.ltb_spec (Z.of_nat (length valid_cities)) n_cities); lia.
  - apply reset_index_from_NoDup.
  - exact Hnd.
  - apply reset_index_from_rows_at. apply iloc_rows_at. exact Hrows.
Qed.

(** Without such a row the seed position 0 is not in the frame. *)
Lemma greedy_selection_empty (n_cities : Z) :
  dropna cities_df = [] -> greedy_selection cities_df n_cities = Raise IndexError.
Proof.
  intros Hnil. unfold greedy_selection.
  pose proof sort_values_perm as Hperm. rewrite Hnil in *.
  apply Permutation_sym, Permutation_nil in Hperm. rewrite Hperm. simpl length.
  replace (Z.to_nat ((if Z.of_nat 0 <? n_cities then Z.of_nat 0 else n_cities) - 1))
    with 0%nat; [reflexivity |].
  destruct (Z.ltb_spec (Z.of_nat 0) n_cities); lia.
Qed.

End GreedySelection.

(** ** Claims on the repair loop *)

Section RepairClaims.

Context {ext : Externals}.


Hypothesis haversine_distance_sym :
  forall la1 lo1 la2 lo2 d : Q,
    haversine_distance la1 lo1 la2 lo2 = Some d ->
    exists d', haversine_distance la2 lo2 la1 lo1 = Some d' /\ d' == d.

(** After a replacement every two rows under different labels have a
    distance: that of two rows that stayed, which is not below the former
    minimum, or one that involves the new row, which is above it. *)
Lemma replaced_pair_distance (improved_cities : list (Z * City))
    (min_dist : Q) (closest_pair : option (Z * Z)) (replace_idx : Z)
    (replacement : City) (r1 r2 : Z * City) :
  closest_pair_scan improved_cities = Ok (Fin min_dist, closest_pair) ->
  (forall row : Z * City,
     In row improved_cities -> fst row <> replace_idx ->
     exists d, city_distance replacement (snd row) = Ok d /\ (min_dist < d)%Q) ->
  In r1 (set_loc improved_cities replace_idx replacement) ->
  In r2 (set_loc improved_cities replace_idx replacement) ->
  fst r1 < fst r2 ->
  exists d,
    city_distance (snd r1) (snd r2) = Ok d
    /\ ((In r1 improved_cities /\ In r2 improved_cities
         /\ fst r1 <> replace_idx /\ fst r2 <> replace_idx
         /\ (min_dist <= d)%Q)
        \/ (min_dist < d)%Q).
Proof.
  intros Hscan Hfar H1 H2 Hlt.
  apply in_set_loc in H1 as [[H1 Hn1] | ->];
    apply in_set_loc in H2 as [[H2 Hn2] | ->]; simpl in *.
  - destruct (closest_pair_scan_lower _ _ r1 r2 Hscan H1 H2 Hlt) as (d & Hd & Hle).
    exists d. split; [exact Hd |]. left. simpl in Hle. auto.
  - destruct (Hfar r1 H1 Hn1) as (d & Hd & Hfar1).
    destruct (city_distance_sym haversine_distance_sym _ _ _ Hd) as (d' & Hd' & Heq).
    exists d'. split; [exact Hd' |]. right. rewrite Heq. exact Hfar1.
  - destruct (Hfar r2 H2 Hn2) as (d & Hd & Hfar2).
    exists d. split; [exact Hd |]. right. exact Hfar2.
  - lia.
Qed.

(** C6, amended.  With a symmetric distance, an accepted replacement puts a
    row in the place of a row of the closest pair, the less populous one or
    the second at equal populations; the scan of the new selection is
    defined and its least pairwise distance is at least the former least
    distance, and strictly greater whenever no other pair was at the former
    least distance; the row put in is strictly farther than the former
    least distance from every other row of the selection. *)
Theorem replacement_keeps_minimum
    (all_cities : list (Z * City)) (min_distance_km : Q)
    (improved_cities : list (Z * City)) (selected_indices : gset Z)
    (improved_cities' : list (Z * City)) (selected_indices' : gset Z) :
  repair_iteration all_cities min_distance_km improved_cities selected_indices
  = Replaced improved_cities' selected_indices' ->
  exists (min_dist : Q) (i j : Z) (city1 city2 replacement : City)
         (after : xfloat * option (Z * Z)),
    closest_pair_scan improved_cities = Ok (Fin min_dist, Some (i, j))
    /\ loc improved_cities i = Row city1
    /\ loc improved_cities j = Row city2
    /\ improved_cities'
       = set_loc improved_cities
           (if population city1 <? population city2 then i else j) replacement
    /\ closest_pair_scan improved_cities' = Ok after
    /\ xle (Fin min_dist) (fst after)
    /\ ((forall (r1 r2 : Z * City) (d : Q),
           In r1 improved_cities -> In r2 improved_cities -> fst r1 < fst r2 ->
           (fst r1, fst r2) <> (i, j) ->
           city_distance (snd r1) (snd r2) = Ok d -> ~ d == min_dist) ->
        xlt (Fin min_dist) (fst after) = true)
    /\ forall row : Z * City,
         In row improved_cities' ->
         fst row <> (if population city1 <? population city2 then i else j) ->
         exists d,
           city_distance replacement (snd row) = Ok d /\ (min_dist < d)%Q.
Proof.
  intros Hstep.
  apply repair_iteration_replaced in Hstep
    as (min_dist & i & j & city1 & city2 & best & v
        & Hscan & Hviol & Hc1 & Hc2 & Hbest & Hbetter & Hmem & -> & ->).
  unfold removal_target in *. simpl fst in *. simpl snd in *.
  set (replace_idx := if population city1 <? population city2 then i else j) in *.
  assert (Hidx : replace_idx = i \/ replace_idx = j)
    by (unfold replace_idx; destruct (population city1 <? population city2); auto).
  pose proof (replacement_far _ _ _ _ _ _ _ Hbest Hbetter) as Hfar.
  pose proof (replaced_pair_distance improved_cities min_dist (Some (i, j))
                replace_idx (snd best)) as Hpairs.
  destruct (closest_pair_scan_defined
              (set_loc improved_cities replace_idx (snd best))) as [after Hafter].
  { intros r1 r2 H1 H2 Hlt.
    destruct (Hpairs r1 r2 Hscan Hfar H1 H2 Hlt) as (d & Hd & _). eauto. }
  exists min_dist, i, j, city1, city2, (snd best), after.
  split; [exact Hscan |]. split; [exact Hc1 |]. split; [exact Hc2 |].
  split; [reflexivity |]. split; [exact Hafter |].
  assert (Hafter' :
    fst after = PInf
    \/ exists (r1 r2 : Z * City) (d : Q),
         In r1 (set_loc improved_cities replace_idx (snd best))
         /\ In r2 (set_loc improved_cities replace_idx (snd best))
         /\ fst r1 < fst r2
         /\ city_distance (snd r1) (snd r2) = Ok d /\ fst after = Fin d).
  { destruct (closest_pair_scan_first _ _ Hafter)
      as [[_ ->] | (l1 & [r1 r2] & l2 & d & Hl & Hp & -> & _ & _)];
      [left; reflexivity |].
    right. exists r1, r2, d.
    assert (Hin : In (r1, r2)
                    (scanned_pairs (set_loc improved_cities replace_idx (snd best))))
      by (rewrite Hl; apply in_or_app; right; left; reflexivity).
    apply in_scanned_pairs in Hin as (H1 & H2 & Hlt). auto. }
  split; [| split].
  - destruct Hafter' as [-> | (r1 & r2 & d & H1 & H2 & Hlt & Hd & ->)]; [exact I |].
    destruct (Hpairs r1 r2 Hscan Hfar H1 H2 Hlt) as (d' & Hd' & Hcase).
    rewrite Hd in Hd'. injection Hd' as <-. simpl.
    destruct Hcase as [(_ & _ & _ & _ & Hle) | Hlt']; [exact Hle |].
    apply Qlt_le_weak. exact Hlt'.
  - intros Hunique.
    destruct Hafter' as [-> | (r1 & r2 & d & H1 & H2 & Hlt & Hd & ->)];
      [reflexivity |].
    destruct (Hpairs r1 r2 Hscan Hfar H1 H2 Hlt) as (d' & Hd' & Hcase).
    rewrite Hd in Hd'. injection Hd' as <-. unfold xlt. apply Qltb_lt.
    destruct Hcase as [(Ho1 & Ho2 & Hn1 & Hn2 & Hle) | Hlt']; [| exact Hlt'].
    apply Qle_lteq in Hle as [Hlt' | Heq]; [exact Hlt' |].
    exfalso. apply (Hunique r1 r2 d Ho1 Ho2 Hlt); [| exact Hd | symmetry; exact Heq].
    intros Hpair. injection Hpair as Hi Hj. destruct Hidx; congruence.
  - intros row Hin Hne. apply in_set_loc in Hin as [[Hin _] | ->].
    + apply Hfar; assumption.
    + exfalso. apply Hne. reflexivity.
Qed.

End RepairClaims.

(** ** Claims on the whole pipeline *)

Section PipelineClaims.

Context {ext : Externals}.

(** C5.  With a sort that permutes, distances that are not negative and a
    distance of 0, where it is defined, from a point to itself: the rows of
    the selection that a run returns are rows of the pool at pairwise
    different positions, so that no record is in it twice and every member
    is drawn from the pool; and the selection has the labels, hence the
    size, of the one the greedy rounds built, every accepted swap
    overwriting one row in place. *)
Theorem selection_distinct_from_pool (fuel : nat) (cities_df : list (Z * RawCity))
    (n_cities : Z) (min_distance_km : Q) (out : list (Z * City)) :
  Permutation (sort_values (dropna cities_df)) (dropna cities_df) ->
  (forall a b : Q * Q, (0 <= distances_km a b)%Q) ->
  (forall la lo d : Q, haversine_distance la lo la lo = Some d -> d == 0) ->
  select_dispersed_cities fuel cities_df n_cities min_distance_km = Some (Ok out) ->
  (exists positions,
     List.NoDup positions
     /\ rows_at (sort_values (dropna cities_df)) out positions)
  /\ incl (map snd out) (map snd (dropna cities_df))
  /\ exists pool selected_cities,
       greedy_selection cities_df n_cities = Ok (pool, selected_cities)
       /\ map fst out = map fst selected_cities
       /\ length out = length selected_cities.
Proof.
  intros Hperm Hnonneg Hself. unfold select_dispersed_cities.
  assert (Hcase : dropna cities_df = [] \/ dropna cities_df <> [])
    by (destruct (dropna cities_df); [left | right]; congruence).
  destruct Hcase as [Hnil | Hne].
  - rewrite (greedy_selection_empty cities_df Hperm n_cities Hnil). discriminate.
  - destruct (greedy_selection_ok cities_df Hperm Hnonneg n_cities Hne)
      as (sel & positions & Hsel & Hlen & Hlabels & Hnd & Hrows).
    rewrite Hsel. unfold post_process_city_selection. intros Hloop.
    destruct (repair_loop_invariant Hself _ _ _ _ _ positions _ Hloop Hlabels
                Hnd Hrows) as (Hl & positions' & Hnd' & Hrows').
    split; [exists positions'; auto |]. split.
    + intros c Hc. apply (rows_at_incl _ _ _ Hrows') in Hc.
      apply in_map_iff in Hc as (row & <- & Hrow). apply in_map.
      apply (Permutation_in _ Hperm). exact Hrow.
    + exists (sort_values (dropna cities_df)), sel. split; [reflexivity |].
      split; [exact Hl |].
      rewrite <- (length_map fst out), Hl, length_map. reflexivity.
Qed.

(** The run ends.  With a symmetric distance, a sort that permutes and
    distances that are not negative, on a catalog with a row that has
    coordinates: some amount of fuel is enough, and the run then raises
    [KeyError] or [ValueError], or returns
    [max 1 (min n_cities (len valid_cities))] rows. *)
Theorem select_dispersed_cities_ends (cities_df : list (Z * RawCity))
    (n_cities : Z) (min_distance_km : Q) :
  (forall la1 lo1 la2 lo2 d : Q,
     haversine_distance la1 lo1 la2 lo2 = Some d ->
     exists d', haversine_distance la2 lo2 la1 lo1 = Some d' /\ d' == d) ->
  Permutation (sort_values (dropna cities_df)) (dropna cities_df) ->
  (forall a b : Q * Q, (0 <= distances_km a b)%Q) ->
  dropna cities_df <> [] ->
  exists fuel,
    select_dispersed_cities fuel cities_df n_cities min_distance_km
    = Some (Raise KeyError)
    \/ select_dispersed_cities fuel cities_df n_cities min_distance_km
       = Some (Raise ValueError)
    \/ exists out,
         select_dispersed_cities fuel cities_df n_cities min_distance_km
         = Some (Ok out)
         /\ Z.of_nat (length out)
            = Z.max 1 (Z.min n_cities (Z.of_nat (length (dropna cities_df)))).
Proof.
  intros Hsym Hperm Hnonneg Hne. unfold select_dispersed_cities.
  destruct (greedy_selection_ok cities_df Hperm Hnonneg n_cities Hne)
    as (sel & positions & Hsel & Hlen & _).
  rewrite Hsel. unfold post_process_city_selection.
  destruct (repair_loop_ends Hsym (sort_values (dropna cities_df)) min_distance_km
              sel (list_to_set (map fst sel))) as (fuel & r & Hloop).
  exists fuel. rewrite Hloop.
  apply repair_loop_outcome in Hloop as [-> | [-> | (out & -> & Hl)]];
    [left; reflexivity | right; left; reflexivity |].
  right. right. exists out. split; [reflexivity |].
  rewrite <- Hlen, <- (length_map fst out), Hl, length_map. reflexivity.
Qed.

End PipelineClaims.
(** C10, amended.  A run is a function of the catalog, [n_cities] and
    [min_distance_km]: two runs that end give the same result, whatever fuel
    they had.  A greedy round appends the first position that holds the
    maximum of [min_distances]; the closest-pair scan answers the first
    pair it meets at the least distance; and a pass that replaces a row
    replaces the first row of the closest pair when that row has strictly
    fewer inhabitants than the second, and the second row otherwise, also
    at equal populations. *)
Theorem pipeline_deterministic {ext : Externals} :
  (forall (fuel1 fuel2 : nat) (cities_df : list (Z * RawCity)) (n_cities : Z)
          (min_distance_km : Q) (r1 r2 : result (list (Z * City))),
     select_dispersed_cities fuel1 cities_df n_cities min_distance_km = Some r1 ->
     select_dispersed_cities fuel2 cities_df n_cities min_distance_km = Some r2 ->
     r1 = r2)
  /\ (forall (coords_rad : list (Q * Q)) (n_valid : nat)
             (selected_indices out : list nat),
        greedy_round coords_rad n_valid selected_indices = Ok out ->
        exists (selected_coords : list (Q * Q)) (min_distances a1 : list Q)
               (x : Q) (a2 : list Q),
          mapM (index coords_rad) selected_indices = Ok selected_coords
          /\ mapM (min_distance_entry coords_rad selected_indices selected_coords)
               (seq 0 n_valid) = Ok min_distances
          /\ min_distances = a1 ++ x :: a2
          /\ out = selected_indices ++ [length a1]
          /\ Forall (fun y => (y < x)%Q) a1
          /\ Forall (fun y => (y <= x)%Q) a2)
  /\ (forall (improved_cities : list (Z * City)) (min_dist : xfloat)
             (closest_pair : Z * Z),
        closest_pair_scan improved_cities = Ok (min_dist, Some closest_pair) ->
        exists l1 p l2 d,
          scanned_pairs improved_cities = l1 ++ p :: l2
          /\ pair_distance p = Ok d
          /\ min_dist = Fin d /\ closest_pair = pair_labels p
          /\ Forall (fun q => exists dq, pair_distance q = Ok dq /\ (d < dq)%Q) l1
          /\ Forall (fun q => exists dq, pair_distance q = Ok dq /\ (d <= dq)%Q) l2)
  /\ (forall (all_cities : list (Z * City)) (min_distance_km : Q)
             (improved_cities : list (Z * City)) (selected_indices : gset Z)
             (improved_cities' : list (Z * City)) (selected_indices' : gset Z),
        repair_iteration all_cities min_distance_km improved_cities
          selected_indices
        = Replaced improved_cities' selected_indices' ->
        exists (min_dist : Q) (i j : Z) (city1 city2 replacement : City),
          closest_pair_scan improved_cities = Ok (Fin min_dist, Some (i, j))
          /\ loc improved_cities i = Row city1
          /\ loc improved_cities j = Row city2
          /\ (population city1 < population city2 ->
              improved_cities' = set_loc improved_cities i replacement)
          /\ (population city2 <= population city1 ->
              improved_cities' = set_loc improved_cities j replacement)).
Proof.
  split; [| split; [| split]].
  - intros fuel1 fuel2 cities_df n_cities min_distance_km r1 r2 H1 H2.
    unfold select_dispersed_cities in *.
    destruct (greedy_selection cities_df n_cities) as [[pool sel]|e];
      [| congruence].
    unfold post_process_city_selection in *.
    apply (repair_loop_fuel_mono _ _ _ _ _ _ fuel2) in H1.
    apply (repair_loop_fuel_mono _ _ _ _ _ _ fuel1) in H2.
    rewrite Nat.add_comm in H2. congruence.
  - intros coords_rad n_valid selected_indices out. unfold greedy_round.
    destruct (mapM (index coords_rad) selected_indices) as [selected_coords|e]
      eqn:Ecoords; simpl; [| discriminate].
    destruct (mapM _ (seq 0 n_valid)) as [min_distances|e] eqn:Eentries; simpl;
      [| discriminate].
    destruct (np_argmax min_distances) as [k|e] eqn:Hargmax; simpl;
      [| discriminate].
    intros H. injection H as <-.
    apply np_argmax_first in Hargmax as (a1 & x & a2 & Ha & Hk & H1 & H2).
    exists selected_coords, min_distances, a1, x, a2. rewrite Hk.
    repeat split; auto.
  - intros improved_cities min_dist closest_pair Hscan.
    destruct (closest_pair_scan_first _ _ Hscan)
      as [[_ H] | (l1 & p & l2 & d & Hl & Hp & H & Hl1 & Hl2)]; [discriminate |].
    injection H as -> ->. exists l1, p, l2, d. repeat split; auto.
  - intros all_cities min_distance_km improved_cities selected_indices
      improved_cities' selected_indices' Hstep.
    apply repair_iteration_replaced in Hstep
      as (min_dist & i & j & city1 & city2 & best & v
          & Hscan & _ & Hc1 & Hc2 & _ & _ & _ & -> & _).
    exists min_dist, i, j, city1, city2, (snd best).
    split; [exact Hscan |]. split; [exact Hc1 |]. split; [exact Hc2 |].
    unfold removal_target. simpl fst. simpl snd.
    split; intros Hpop;
      destruct (Z.ltb_spec (population city1) (population city2));
      try lia; reflexivity.
Qed.

(** ** The example instances *)

Lemma equator_distances_km_nonneg (a b : Q * Q) :
  (0 <= distances_km (Externals := equator) a b)%Q.
Proof.
  simpl. unfold equator_distances_km.
  apply Qmult_le_0_compat; [discriminate | apply Qabs_nonneg].
Qed.

Lemma equator_haversine_distance_self (la lo d : Q) :
  haversine_distance (Externals := equator) la lo la lo = Some d -> d == 0.
Proof.
  change (haversine_distance (Externals := equator) la lo la lo)
    with (Some (6371 * Qabs (equator_radians lo - equator_radians lo))%Q).
  intros Hd.
  assert (Hd' : (6371 * Qabs (equator_radians lo - equator_radians lo))%Q = d)
    by congruence.
  rewrite <- Hd'.
  assert (H : (equator_radians lo - equator_radians lo == 0)%Q) by ring.
  rewrite H. reflexivity.
Qed.

Lemma equator_haversine_distance_sym (la1 lo1 la2 lo2 d : Q) :
  haversine_distance (Externals := equator) la1 lo1 la2 lo2 = Some d ->
  exists d',
    haversine_distance (Externals := equator) la2 lo2 la1 lo1 = Some d'
    /\ d' == d.
Proof.
  change (haversine_distance (Externals := equator) la1 lo1 la2 lo2)
    with (Some (6371 * Qabs (equator_radians lo2 - equator_radians lo1))%Q).
  change (haversine_distance (Externals := equator) la2 lo2 la1 lo1)
    with (Some (6371 * Qabs (equator_radians lo1 - equator_radians lo2))%Q).
  intros Hd.
  assert (Hd' : (6371 * Qabs (equator_radians lo2 - equator_radians lo1))%Q = d)
    by congruence.
  rewrite <- Hd'. eexists. split; [reflexivity |].
  rewrite (Qabs_Qminus (equator_radians lo2) (equator_radians lo1)). reflexivity.
Qed.

Lemma equator_haversine_distance_nonneg (la1 lo1 la2 lo2 d : Q) :
  haversine_distance (Externals := equator) la1 lo1 la2 lo2 = Some d ->
  (0 <= d)%Q.
Proof.
  change (haversine_distance (Externals := equator) la1 lo1 la2 lo2)
    with (Some (6371 * Qabs (equator_radians lo2 - equator_radians lo1))%Q).
  intros Hd.
  assert (Hd' : (6371 * Qabs (equator_radians lo2 - equator_radians lo1))%Q = d)
    by congruence.
  rewrite <- Hd'.
  apply Qmult_le_0_compat; [discriminate | apply Qabs_nonneg].
Qed.

Lemma equator_city_distance_defined (c1 c2 : City) :
  exists d, city_distance (ext := equator) c1 c2 = Ok d.
Proof. unfold city_distance. simpl. eexists. reflexivity. Qed.

(** ** Worked runs *)

Local Open Scope string_scope.

(** C1.  Greedy step property, at [unsorted_catalog] with [n_cities = 2]:
    the coordinates are taken before the frame is sorted, the rows after.
    The seed row is B, the most populous; the round scores the positions
    from the coordinates of A, the first row of the catalog, and appends
    position 2, which in the sorted frame is A.  A is 1 degree from B while
    C, left unselected, is 9 degrees from B: the row appended does not have
    the greatest isolation score. *)
Theorem greedy_round_scores_unsorted_rows :
  greedy_selection (ext := equator) unsorted_catalog 2
  = Ok ([(1, mkCity "B" 0 1 100); (2, mkCity "C" 0 10 50); (0, mkCity "A" 0 0 10)],
        [(0, mkCity "B" 0 1 100); (1, mkCity "A" 0 0 10)])
  /\ exists score_A score_C : Q,
       isolation_score (ext := equator) [mkCity "B" 0 1 100] (mkCity "A" 0 0 10)
       = Ok score_A
       /\ isolation_score (ext := equator) [mkCity "B" 0 1 100] (mkCity "C" 0 10 50)
          = Ok score_C
       /\ (score_A < score_C)%Q.
Proof.
  split; [vm_compute; reflexivity |].
  eexists. eexists. split; [reflexivity |]. split; [reflexivity |].
  vm_compute. reflexivity.
Qed.

(** C2.  The search set, at [small_catalog] with [n_cities = 2]: the greedy
    rounds select A and C and relabel them 0 and 1, and [selected_indices]
    holds these new labels.  In the pass that looks for a replacement the
    rows that get past the membership test are those whose catalog label is
    neither 0 nor 1: C, which is in the selection, and not B, which is not. *)
Theorem search_set_mixes_labels :
  greedy_selection (ext := equator) small_catalog 2
  = Ok ([(0, mkCity "A" 0 0 100); (1, mkCity "B" 0 1 50); (2, mkCity "C" 0 2 10)],
        [(0, mkCity "A" 0 0 100); (1, mkCity "C" 0 2 10)])
  /\ search_set
       [(0, mkCity "A" 0 0 100); (1, mkCity "B" 0 1 50); (2, mkCity "C" 0 2 10)]
       (list_to_set (map fst [(0, mkCity "A" 0 0 100); (1, mkCity "C" 0 2 10)]))
     = [(2, mkCity "C" 0 2 10)]
  /\ repair_iteration (ext := equator)
       [(0, mkCity "A" 0 0 100); (1, mkCity "B" 0 1 50); (2, mkCity "C" 0 2 10)]
       500 [(0, mkCity "A" 0 0 100); (1, mkCity "C" 0 2 10)]
       (list_to_set (map fst [(0, mkCity "A" 0 0 100); (1, mkCity "C" 0 2 10)]))
     = Stalled [(0, mkCity "A" 0 0 100); (1, mkCity "C" 0 2 10)].
Proof.
  split; [vm_compute; reflexivity |]. split; vm_compute; reflexivity.
Qed.

(** C3.  The length of the selection, for a catalog without a row that has
    both coordinates: the count of valid rows is 0, so the length asked for
    is 0; the seed position 0 is taken all the same and the run raises
    [IndexError] at [valid_cities.iloc[selected_indices]]. *)
Theorem empty_pool_raises {ext : Externals} (fuel : nat)
    (cities_df : list (Z * RawCity)) (n_cities : Z) (min_distance_km : Q) :
  Permutation (sort_values (dropna cities_df)) (dropna cities_df) ->
  dropna cities_df = [] ->
  select_dispersed_cities fuel cities_df n_cities min_distance_km
  = Some (Raise IndexError).
Proof.
  intros Hperm Hnil. unfold select_dispersed_cities.
  rewrite (greedy_selection_empty cities_df Hperm n_cities Hnil). reflexivity.
Qed.

(** The run on [blank_catalog]. *)
Lemma empty_pool_raises_witness :
  Permutation (sort_values (Externals := equator) (dropna blank_catalog))
    (dropna blank_catalog)
  /\ dropna blank_catalog = []
  /\ select_dispersed_cities (ext := equator) 3 blank_catalog 5 500
     = Some (Raise IndexError).
Proof.
  split; [apply Permutation_refl |]. split; [reflexivity |].
  apply (empty_pool_raises (ext := equator) 3 blank_catalog 5 500);
    [apply Permutation_refl | reflexivity].
Defined.

(** C4.  No abort: at [blank_catalog], whose rows lack a coordinate, with
    50 cities asked for, the run raises [IndexError]; at [line_catalog],
    four rows with coordinates and 2 cities asked for, it raises
    [KeyError]. *)
Theorem pipeline_aborts (fuel : nat) :
  select_dispersed_cities (ext := equator) fuel blank_catalog 50 500
  = Some (Raise IndexError)
  /\ select_dispersed_cities (ext := equator) (2 + fuel) line_catalog 2 500
     = Some (Raise KeyError).
Proof.
  split; [reflexivity |]. vm_compute. reflexivity.
Qed.

(** C8.  Commit or stall, at [line_catalog] with [n_cities = 2]: the greedy
    rounds select M and N; the first pass replaces N, the row under label
    1, by X1 and takes label 1 out of [selected_indices].  In the second pass the closest pair is again
    [(0, 1)], the best candidate X2 has a score strictly above the distance
    of that pair, and the row under label 1 is to be replaced again; the
    pass raises [KeyError] at [selected_indices.remove(replace_idx)] and no
    replacement is committed. *)
Theorem better_candidate_not_committed :
  exists (selected_indices : gset Z) (min_dist score : Q),
    greedy_selection (ext := equator) line_catalog 2
    = Ok ([(3, mkCity "M" 0 0 100); (0, mkCity "N" 0 1 50);
           (2, mkCity "X1" 0 2 30); (1, mkCity "X2" 0 3 20)],
          [(0, mkCity "M" 0 0 100); (1, mkCity "N" 0 1 50)])
    /\ repair_iteration (ext := equator)
      [(3, mkCity "M" 0 0 100); (0, mkCity "N" 0 1 50); (2, mkCity "X1" 0 2 30);
       (1, mkCity "X2" 0 3 20)]
      500 [(0, mkCity "M" 0 0 100); (1, mkCity "N" 0 1 50)]
      (list_to_set [0; 1])
    = Replaced [(0, mkCity "M" 0 0 100); (1, mkCity "X1" 0 2 30)] selected_indices
    /\ closest_pair_scan (ext := equator)
         [(0, mkCity "M" 0 0 100); (1, mkCity "X1" 0 2 30)]
       = Ok (Fin min_dist, Some (0, 1))
    /\ best_replacement_search (ext := equator)
         [(3, mkCity "M" 0 0 100); (0, mkCity "N" 0 1 50); (2, mkCity "X1" 0 2 30);
          (1, mkCity "X2" 0 3 20)]
         selected_indices [(0, mkCity "M" 0 0 100); (1, mkCity "X1" 0 2 30)] 1
       = Ok (Some (1, mkCity "X2" 0 3 20), Fin score)
    /\ (min_dist < score)%Q
    /\ (min_dist < 500)%Q
    /\ repair_iteration (ext := equator)
         [(3, mkCity "M" 0 0 100); (0, mkCity "N" 0 1 50); (2, mkCity "X1" 0 2 30);
          (1, mkCity "X2" 0 3 20)]
         500 [(0, mkCity "M" 0 0 100); (1, mkCity "X1" 0 2 30)] selected_indices
       = Aborted KeyError.
Proof.
  eexists. eexists. eexists.
  split; [vm_compute; reflexivity |].
  split; [vm_compute; reflexivity |].
  split; [vm_compute; reflexivity |].
  split; [vm_compute; reflexivity |].
  split; [vm_compute; reflexivity |].
  split; vm_compute; reflexivity.
Qed.


(** C6 as stated fails at [tied_selection]: M is 1 degree from E and 1
    degree from W.  The pass replaces E by X, and the least pairwise
    distance is afterwards what it was before, the distance from M to W. *)
Lemma tied_minimum_not_increased :
  exists (improved_cities' : list (Z * City)) (selected_indices' : gset Z)
         (before after : Q) (pair_before pair_after : option (Z * Z)),
    repair_iteration (ext := equator) tied_pool 500 tied_selection
      (list_to_set (map fst tied_selection))
    = Replaced improved_cities' selected_indices'
    /\ closest_pair_scan (ext := equator) tied_selection
       = Ok (Fin before, pair_before)
    /\ closest_pair_scan (ext := equator) improved_cities'
       = Ok (Fin after, pair_after)
    /\ ~ (before < after)%Q.
Proof.
  eexists. eexists. eexists. eexists. eexists. eexists.
  split; [vm_compute; reflexivity |].
  split; [vm_compute; reflexivity |].
  split; [vm_compute; reflexivity |].
  vm_compute. discriminate.
Qed.

(** The pass on [spread_selection], in which M and E are the only pair one
    degree apart: E is replaced by X. *)
Lemma replacement_keeps_minimum_witness :
  exists (min_dist : Q) (i j : Z) (city1 city2 replacement : City)
         (after : xfloat * option (Z * Z)),
    closest_pair_scan (ext := equator) spread_selection
    = Ok (Fin min_dist, Some (i, j))
    /\ loc spread_selection i = Row city1
    /\ loc spread_selection j = Row city2
    /\ [(0, M_city); (1, X_city); (2, mkCity "V" 0 (-2) 40)]
       = set_loc spread_selection
           (if (population city1 <? population city2)%Z then i else j) replacement
    /\ closest_pair_scan (ext := equator)
         [(0, M_city); (1, X_city); (2, mkCity "V" 0 (-2) 40)] = Ok after
    /\ xle (Fin min_dist) (fst after)
    /\ ((forall (r1 r2 : Z * City) (d : Q),
           In r1 spread_selection -> In r2 spread_selection -> fst r1 < fst r2 ->
           (fst r1, fst r2) <> (i, j) ->
           city_distance (ext := equator) (snd r1) (snd r2) = Ok d ->
           ~ d == min_dist) ->
        xlt (Fin min_dist) (fst after) = true)
    /\ forall row : Z * City,
         In row [(0, M_city); (1, X_city); (2, mkCity "V" 0 (-2) 40)] ->
         fst row <> (if (population city1 <? population city2)%Z then i else j) ->
         exists d,
           city_distance (ext := equator) replacement (snd row) = Ok d
           /\ (min_dist < d)%Q.
Proof.
  apply (replacement_keeps_minimum (ext := equator)
           equator_haversine_distance_sym tied_pool 500 spread_selection
           (list_to_set (map fst spread_selection))
           [(0, M_city); (1, X_city); (2, mkCity "V" 0 (-2) 40)]
           ({[3]} ∪ list_to_set (map fst spread_selection) ∖ {[1]})).
  vm_compute. reflexivity.
Defined.

(** C10 as stated fails at [twin_selection]: the two rows of the closest
    pair have the same population, and the pass keeps the first and
    replaces the second. *)
Lemma population_tie_replaces_second :
  exists (improved_cities' : list (Z * City)) (selected_indices' : gset Z)
         (min_dist : Q),
    closest_pair_scan (ext := equator) twin_selection
    = Ok (Fin min_dist, Some (0, 1))
    /\ loc twin_selection 0 = Row (mkCity "P" 0 0 70)
    /\ loc twin_selection 1 = Row (mkCity "Q" 0 1 70)
    /\ repair_iteration (ext := equator) (twin_selection ++ [(2, X_city)]) 500
         twin_selection (list_to_set (map fst twin_selection))
       = Replaced improved_cities' selected_indices'
    /\ loc improved_cities' 0 = Row (mkCity "P" 0 0 70)
    /\ loc improved_cities' 1 = Row X_city.
Proof.
  eexists. eexists. eexists.
  split; [vm_compute; reflexivity |].
  split; [reflexivity |]. split; [reflexivity |].
  split; [vm_compute; reflexivity |].
  split; reflexivity.
Qed.

(** The run on [unsorted_catalog], in which the repair replaces A by C. *)
Lemma selection_distinct_from_pool_witness :
  Permutation (sort_values (Externals := equator) (dropna unsorted_catalog))
    (dropna unsorted_catalog)
  /\ (forall a b : Q * Q, (0 <= distances_km (Externals := equator) a b)%Q)
  /\ (forall la lo d : Q,
        haversine_distance (Externals := equator) la lo la lo = Some d -> d == 0)
  /\ select_dispersed_cities (ext := equator) 2 unsorted_catalog 2 500
     = Some (Ok [(0, mkCity "B" 0 1 100); (1, mkCity "C" 0 10 50)])
  /\ (exists positions,
        List.NoDup positions
        /\ rows_at (sort_values (Externals := equator) (dropna unsorted_catalog))
             [(0, mkCity "B" 0 1 100); (1, mkCity "C" 0 10 50)] positions)
  /\ incl (map snd [(0, mkCity "B" 0 1 100); (1, mkCity "C" 0 10 50)])
       (map snd (dropna unsorted_catalog))
  /\ exists pool selected_cities,
       greedy_selection (ext := equator) unsorted_catalog 2
       = Ok (pool, selected_cities)
       /\ map fst [(0, mkCity "B" 0 1 100); (1, mkCity "C" 0 10 50)]
          = map fst selected_cities
       /\ length [(0, mkCity "B" 0 1 100); (1, mkCity "C" 0 10 50)]
          = length selected_cities.
Proof.
  assert (Hperm : Permutation
                    (sort_values (Externals := equator) (dropna unsorted_catalog))
                    (dropna unsorted_catalog)).
  { vm_compute. eapply perm_trans; [apply perm_skip; apply perm_swap |].
    apply perm_swap. }
  split; [exact Hperm |].
  split; [exact equator_distances_km_nonneg |].
  split; [exact equator_haversine_distance_self |].
  split; [vm_compute; reflexivity |].
  apply (selection_distinct_from_pool (ext := equator) 2 unsorted_catalog 2 500).
  - exact Hperm.
  - exact equator_distances_km_nonneg.
  - exact equator_haversine_distance_self.
  - vm_compute. reflexivity.
Defined.

Local Close Scope string_scope.
(** * Further properties of the code *)


(** ** [load_city_data] and [dropna] *)

Lemma filter_sublist {A : Type} (f : A -> bool) (l : list A) :
  sublist (List.filter f l) l.
Proof.
  induction l as [|a l IH]; simpl; [constructor |].
  destruct (f a); [apply sublist_skip | apply sublist_cons]; exact IH.
Qed.

Lemma in_load_city_data (cities_df : list (Z * RawCity)) (population_min : Z)
    (r : Z * RawCity) :
  In r (load_city_data cities_df population_min)
  <-> In r cities_df
      /\ (0 < population_min -> population_min <= raw_population (snd r)).
Proof.
  unfold load_city_data. rewrite Z.gtb_ltb.
  destruct (Z.ltb_spec 0 population_min) as [Hpos | Hnpos].
  - rewrite filter_In, Z.geb_leb, Z.leb_le. tauto.
  - split; [intros H; split; [exact H | lia] | tauto].
Qed.

(** The population floor keeps the rows at or above it, in their order and
    under their labels, and no others; a floor of 0 or below keeps the
    whole frame. *)
Theorem load_city_data_keeps (cities_df : list (Z * RawCity)) (population_min : Z) :
  (forall r : Z * RawCity,
     In r (load_city_data cities_df population_min)
     <-> In r cities_df
         /\ (0 < population_min -> population_min <= raw_population (snd r)))
  /\ sublist (load_city_data cities_df population_min) cities_df
  /\ (population_min <= 0 -> load_city_data cities_df population_min = cities_df).
Proof.
  split; [intros r; apply in_load_city_data |].
  unfold load_city_data. rewrite Z.gtb_ltb.
  destruct (Z.ltb_spec 0 population_min) as [Hpos | Hnpos].
  - split; [apply filter_sublist | lia].
  - split; reflexivity.
Qed.

Lemma in_dropna (cities_df : list (Z * RawCity)) (row : Z * City) :
  In row (dropna cities_df) ->
  exists r : RawCity,
    In (fst row, r) cities_df
    /\ raw_lat r = Some (lat (snd row)) /\ raw_lng r = Some (lng (snd row))
    /\ raw_city r = city (snd row) /\ raw_population r = population (snd row).
Proof.
  unfold dropna. induction cities_df as [|[l r] df IH]; simpl; [tauto |].
  destruct (raw_lat r) as [la|] eqn:Ela; [destruct (raw_lng r) as [lo|] eqn:Elo |];
    simpl.
  - intros [<- | Hin].
    + exists r. simpl. auto.
    + destruct (IH Hin) as (r' & H & Hrest). exists r'. auto.
  - intros Hin. destruct (IH Hin) as (r' & H & Hrest). exists r'. auto.
  - intros Hin. destruct (IH Hin) as (r' & H & Hrest). exists r'. auto.
Qed.

Section Drawn.

Context {ext : Externals}.

Lemma greedy_selection_incl (cities_df : list (Z * RawCity)) (n_cities : Z)
    (pool selected_cities : list (Z * City)) :
  greedy_selection cities_df n_cities = Ok (pool, selected_cities) ->
  pool = sort_values (dropna cities_df)
  /\ incl (map snd selected_cities) (map snd pool).
Proof.
  unfold greedy_selection.
  destruct (greedy_rounds _ _ _ _) as [positions|e]; simpl; [| discriminate].
  destruct (iloc (sort_values (dropna cities_df)) positions) as [rows|e] eqn:Erows;
    simpl; [| discriminate].
  intros H. injection H as <- <-. split; [reflexivity |].
  unfold reset_index. rewrite reset_index_from_values.
  destruct (iloc_incl _ _ _ Erows) as [Hincl _].
  intros c Hc. apply in_map_iff in Hc as (row & <- & Hrow).
  apply in_map. apply Hincl. exact Hrow.
Qed.

Lemma repair_loop_incl (all_cities : list (Z * City)) (min_distance_km : Q)
    (fuel : nat) :
  forall (improved_cities : list (Z * City)) (selected_indices : gset Z)
         (out : list (Z * City)),
    repair_loop fuel all_cities min_distance_km improved_cities selected_indices
    = Some (Ok out) ->
    incl (map snd improved_cities) (map snd all_cities) ->
    incl (map snd out) (map snd all_cities).
Proof.
  induction fuel as [|fuel IH]; intros improved_cities selected_indices out;
    simpl; [discriminate |].
  destruct (repair_iteration all_cities min_distance_km improved_cities
              selected_indices) as [df | df | df s | e] eqn:Estep.
  - apply repair_iteration_converged in Estep. subst df.
    intros H. injection H as <-. auto.
  - apply repair_iteration_stalled in Estep. subst df.
    intros H. injection H as <-. auto.
  - intros Hloop Hincl. apply (IH _ _ _ Hloop).
    destruct (replaced_rows_from _ _ _ _ _ _ (map snd all_cities) Estep Hincl)
      as (_ & H & _); [intros c Hc; exact Hc | exact H].
  - discriminate.
Qed.

(** The two functions chained: what [select_dispersed_cities] returns from
    a frame loaded with a positive population floor is at or above the
    floor. *)
Theorem selection_respects_population_floor (fuel : nat)
    (cities_df : list (Z * RawCity)) (population_min n_cities : Z)
    (min_distance_km : Q) (out : list (Z * City)) :
  0 < population_min ->
  Permutation
    (sort_values (dropna (load_city_data cities_df population_min)))
    (dropna (load_city_data cities_df population_min)) ->
  select_dispersed_cities fuel (load_city_data cities_df population_min)
    n_cities min_distance_km = Some (Ok out) ->
  forall row : Z * City, In row out -> population_min <= population (snd row).
Proof.
  intros Hpos Hperm. unfold select_dispersed_cities.
  destruct (greedy_selection _ n_cities) as [[pool sel]|e] eqn:Egreedy;
    [| discriminate].
  apply greedy_selection_incl in Egreedy as [-> Hsel].
  unfold post_process_city_selection. intros Hloop row Hrow.
  apply repair_loop_incl in Hloop; [| exact Hsel].
  assert (Hin : In (snd row)
                  (map snd (sort_values
                              (dropna (load_city_data cities_df population_min)))))
    by (apply Hloop; apply in_map; exact Hrow).
  apply in_map_iff in Hin as (row' & Heq & Hin).
  apply (Permutation_in _ Hperm) in Hin.
  apply in_dropna in Hin as (r & Hr & _ & _ & _ & Hpop).
  apply in_load_city_data in Hr as [_ Hfloor].
  simpl in Hfloor. rewrite <- Heq, <- Hpop. apply Hfloor. exact Hpos.
Qed.

End Drawn.

(** ** More on one pass of the repair loop *)

Lemma xle_xlt_trans (a b c : xfloat) : xle a b -> xlt b c = true -> xlt a c = true.
Proof.
  destruct a as [x|], b as [y|], c as [z|]; unfold xlt, xle; try tauto; try discriminate.
  rewrite !Qltb_lt. intros H1 H2. eapply Qle_lt_trans; eassumption.
Qed.


Section PassFacts.

Context {ext : Externals}.

(** The loop over the candidates, where it does not raise, has scored every
    row of the search set, and it keeps the first row with the greatest
    score, provided that score is above what it started from. *)
Lemma search_fold_first (improved_cities : list (Z * City)) (replace_idx : Z)
    (l : list (Z * City)) :
  forall st st' : option (Z * City) * xfloat,
    foldM (search_step improved_cities replace_idx) l st = Ok st' ->
    (st' = st
     /\ Forall
          (fun c : Z * City =>
             exists s, candidate_score improved_cities replace_idx (snd c) = Ok s
                       /\ xle s (snd st)) l)
    \/ exists l1 b l2 sb,
         l = l1 ++ b :: l2
         /\ candidate_score improved_cities replace_idx (snd b) = Ok sb
         /\ st' = (Some b, sb)
         /\ xlt (snd st) sb = true
         /\ Forall
              (fun c : Z * City =>
                 exists s, candidate_score improved_cities replace_idx (snd c) = Ok s
                           /\ xlt s sb = true) l1
         /\ Forall
              (fun c : Z * City =>
                 exists s, candidate_score improved_cities replace_idx (snd c) = Ok s
                           /\ xle s sb) l2.
Proof.
  induction l as [|c l IH]; intros st st' H; simpl in H.
  - injection H as <-. left. split; [reflexivity | constructor].
  - unfold search_step at 1 in H.
    destruct (candidate_score improved_cities replace_idx (snd c)) as [s|e] eqn:Ec;
      simpl in H; [| discriminate].
    destruct (xlt (snd st) s) eqn:E.
    + right.
      destruct (IH _ _ H)
        as [[-> Hall] | (l1 & b & l2 & sb & Hl & Hb & -> & Hlt & H1 & H2)].
      * exists [], c, l, s. split; [reflexivity |]. split; [exact Ec |].
        split; [reflexivity |]. split; [exact E |]. split; [constructor | exact Hall].
      * exists (c :: l1), b, l2, sb. simpl in Hlt.
        split; [rewrite Hl; reflexivity |]. split; [exact Hb |].
        split; [reflexivity |].
        split; [eapply xlt_xle_trans; [exact E | apply xlt_xle; exact Hlt] |].
        split; [| exact H2]. constructor; [| exact H1]. exists s. auto.
    + apply xlt_false_xle in E.
      destruct (IH _ _ H)
        as [[-> Hall] | (l1 & b & l2 & sb & Hl & Hb & -> & Hlt & H1 & H2)].
      * left. split; [reflexivity |]. constructor; [| exact Hall]. exists s. auto.
      * right. exists (c :: l1), b, l2, sb.
        split; [rewrite Hl; reflexivity |]. split; [exact Hb |].
        split; [reflexivity |]. split; [exact Hlt |].
        split; [| exact H2]. constructor; [| exact H1].
        exists s. split; [exact Ec |]. eapply xle_xlt_trans; eassumption.
Qed.

(** The search for a replacement, where it does not raise, has scored every
    row of the search set; it ends with nothing when none of them has a
    positive score, and otherwise with the first row of the search set that
    has the greatest score. *)
Theorem best_replacement_is_first_maximum (all_cities : list (Z * City))
    (selected_indices : gset Z) (improved_cities : list (Z * City))
    (replace_idx : Z) (st : option (Z * City) * xfloat) :
  best_replacement_search all_cities selected_indices improved_cities replace_idx
  = Ok st ->
  (st = (None, Fin 0)
   /\ Forall
        (fun c : Z * City =>
           exists s, candidate_score improved_cities replace_idx (snd c) = Ok s
                     /\ xle s (Fin 0))
        (search_set all_cities selected_indices))
  \/ exists l1 b l2 sb,
       search_set all_cities selected_indices = l1 ++ b :: l2
       /\ candidate_score improved_cities replace_idx (snd b) = Ok sb
       /\ st = (Some b, sb)
       /\ xlt (Fin 0) sb = true
       /\ Forall
            (fun c : Z * City =>
               exists s, candidate_score improved_cities replace_idx (snd c) = Ok s
                         /\ xlt s sb = true) l1
       /\ Forall
            (fun c : Z * City =>
               exists s, candidate_score improved_cities replace_idx (snd c) = Ok s
                         /\ xle s sb) l2.
Proof.
  rewrite best_replacement_search_search_set. intros H.
  destruct (search_fold_first _ _ _ _ _ H)
    as [[-> Hall] | (l1 & b & l2 & sb & Hl & Hb & -> & Hlt & H1 & H2)].
  - left. split; [reflexivity | exact Hall].
  - right. exists l1, b, l2, sb. repeat split; auto.
Qed.

(** As long as [selected_indices] holds every label of the selection, which
    is how [post_process_city_selection] starts, a pass raises no
    [KeyError]: the two lookups find their labels and
    [selected_indices.remove] finds its label. *)
Theorem pass_with_known_labels_raises_no_key_error (all_cities : list (Z * City))
    (min_distance_km : Q) (improved_cities : list (Z * City))
    (selected_indices : gset Z) :
  (forall label : Z, In label (map fst improved_cities) ->
                     label ∈ selected_indices) ->
  repair_iteration all_cities min_distance_km improved_cities selected_indices
  <> Aborted KeyError.
Proof.
  intros Hknown. unfold repair_iteration.
  destruct (closest_pair_scan improved_cities) as [[min_dist [[i j]|]]|e] eqn:Escan;
    try discriminate.
  - apply closest_pair_scan_some in Escan
      as (r1 & r2 & d & H1 & H2 & Hi & Hj & _ & _ & _).
    destruct (xlt min_dist (Fin min_distance_km)); [| discriminate].
    assert (Hli : In i (map fst improved_cities))
      by (rewrite <- Hi; apply in_map; exact H1).
    assert (Hlj : In j (map fst improved_cities))
      by (rewrite <- Hj; apply in_map; exact H2).
    pose proof (loc_label _ _ Hli) as Hni. pose proof (loc_label _ _ Hlj) as Hnj.
    destruct (loc improved_cities i) as [city1|rows1|];
      destruct (loc improved_cities j) as [city2|rows2|];
      try discriminate; try congruence.
    destruct (best_replacement_search _ _ _ _) as [[[best|] v]|e] eqn:Eb;
      try discriminate.
    + destruct (xlt min_dist v); [| discriminate].
      rewrite bool_decide_eq_true_2; [discriminate |].
      apply Hknown. unfold removal_target.
      destruct (population city1 <? population city2); simpl; assumption.
    + apply best_replacement_search_raises in Eb. subst e. discriminate.
  - apply closest_pair_scan_raises in Escan. subst e. discriminate.
Qed.

(** A pass that ends without an exception has scanned the selection. *)
Lemma repair_iteration_scanned (all_cities : list (Z * City)) (min_distance_km : Q)
    (improved_cities : list (Z * City)) (selected_indices : gset Z) :
  (forall e, repair_iteration all_cities min_distance_km improved_cities
               selected_indices <> Aborted e) ->
  exists st, closest_pair_scan improved_cities = Ok st.
Proof.
  unfold repair_iteration.
  destruct (closest_pair_scan improved_cities) as [st|e]; [eauto |].
  intros H. exfalso. apply (H e). reflexivity.
Qed.

End PassFacts.

Section PassOutcomes.

Context {ext : Externals}.

Hypothesis haversine_distance_sym :
  forall la1 lo1 la2 lo2 d : Q,
    haversine_distance la1 lo1 la2 lo2 = Some d ->
    exists d', haversine_distance la2 lo2 la1 lo1 = Some d' /\ d' == d.

Lemma converged_separated (all_cities : list (Z * City)) (min_distance_km : Q)
    (improved_cities : list (Z * City)) (selected_indices : gset Z)
    (df : list (Z * City)) :
  repair_iteration all_cities min_distance_km improved_cities selected_indices
  = Converged df ->
  separated min_distance_km improved_cities.
Proof.
  intros Hstep.
  assert (Hmin : exists st,
             closest_pair_scan improved_cities = Ok st
             /\ xle (Fin min_distance_km) (fst st)).
  { unfold repair_iteration in Hstep.
    destruct (closest_pair_scan improved_cities) as [[min_dist cp]|e] eqn:Escan;
      [| discriminate].
    exists (min_dist, cp). split; [reflexivity |]. simpl.
    destruct cp as [[i j]|].
    - destruct (xlt min_dist (Fin min_distance_km)) eqn:E.
      + exfalso.
        destruct (loc improved_cities i); destruct (loc improved_cities j);
          try discriminate.
        destruct (best_replacement_search _ _ _ _) as [[[best|] v]|e];
          try discriminate.
        destruct (xlt min_dist v); [| discriminate].
        destruct (bool_decide _); discriminate.
      + apply xlt_false_xle in E. exact E.
    - destruct (closest_pair_scan_first _ _ Escan)
        as [[_ H] | (l1 & p & l2 & d & _ & _ & H & _)]; [| discriminate].
      injection H as ->. exact I. }
  destruct Hmin as (st & Hscan & Hmin).
  assert (Hordered : forall r1 r2 : Z * City,
             In r1 improved_cities -> In r2 improved_cities -> fst r1 < fst r2 ->
             exists d, city_distance (snd r1) (snd r2) = Ok d
                       /\ (min_distance_km <= d)%Q).
  { intros r1 r2 H1 H2 Hlt.
    destruct (closest_pair_scan_lower _ _ r1 r2 Hscan H1 H2 Hlt) as (d & Hd & Hle).
    exists d. split; [exact Hd |]. apply (xle_trans _ _ _ Hmin Hle). }
  intros r1 r2 H1 H2 Hne.
  destruct (Z.lt_total (fst r1) (fst r2)) as [Hlt | [Heq | Hgt]];
    [apply Hordered; assumption | contradiction |].
  destruct (Hordered r2 r1 H2 H1 Hgt) as (d & Hd & Hle).
  destruct (city_distance_sym haversine_distance_sym _ _ _ Hd) as (d' & Hd' & Heq).
  exists d'. split; [exact Hd' |]. rewrite Heq. exact Hle.
Qed.

(** With a symmetric distance the scan over the pairs in label order misses
    nothing: a pass answers Converged exactly when the distance between
    every two rows under different labels is defined and at least
    [min_distance_km]. *)
Theorem converged_iff_separated (all_cities : list (Z * City))
    (min_distance_km : Q) (improved_cities : list (Z * City))
    (selected_indices : gset Z) :
  repair_iteration all_cities min_distance_km improved_cities selected_indices
  = Converged improved_cities
  <-> separated min_distance_km improved_cities.
Proof.
  split; [apply converged_separated | apply repair_iteration_separated].
Qed.

Lemma replaced_scan_minimum (all_cities : list (Z * City)) (min_distance_km : Q)
    (improved_cities : list (Z * City)) (selected_indices : gset Z)
    (improved_cities' : list (Z * City)) (selected_indices' : gset Z) :
  repair_iteration all_cities min_distance_km improved_cities selected_indices
  = Replaced improved_cities' selected_indices' ->
  exists before after,
    closest_pair_scan improved_cities = Ok before
    /\ closest_pair_scan improved_cities' = Ok after
    /\ xle (fst before) (fst after).
Proof.
  intros Hstep.
  apply repair_iteration_replaced in Hstep
    as (min_dist & i & j & city1 & city2 & best & v
        & Hscan & Hviol & Hc1 & Hc2 & Hbest & Hbetter & Hmem & -> & ->).
  set (replace_idx := removal_target (population city1) (population city2) (i, j))
    in *.
  pose proof (replacement_far _ _ _ _ _ _ _ Hbest Hbetter) as Hfar.
  pose proof (replaced_pair_distance haversine_distance_sym improved_cities
                min_dist (Some (i, j)) replace_idx (snd best)) as Hpairs.
  destruct (closest_pair_scan_defined
              (set_loc improved_cities replace_idx (snd best))) as [after Hafter].
  { intros r1 r2 H1 H2 Hlt.
    destruct (Hpairs r1 r2 Hscan Hfar H1 H2 Hlt) as (d & Hd & _). eauto. }
  exists (Fin min_dist, Some (i, j)), after.
  split; [exact Hscan |]. split; [exact Hafter |]. simpl.
  destruct (closest_pair_scan_first _ _ Hafter)
    as [[_ ->] | (l1 & [r1 r2] & l2 & d & Hl & Hp & -> & _ & _)]; [exact I |].
  assert (Hin : In (r1, r2)
                  (scanned_pairs (set_loc improved_cities replace_idx (snd best))))
    by (rewrite Hl; apply in_or_app; right; left; reflexivity).
  apply in_scanned_pairs in Hin as (H1 & H2 & Hlt).
  destruct (Hpairs r1 r2 Hscan Hfar H1 H2 Hlt) as (d' & Hd' & Hcase).
  unfold pair_distance in Hp. simpl in Hp, Hd', Hlt.
  rewrite Hp in Hd'. injection Hd' as <-. simpl.
  destruct Hcase as [(_ & _ & _ & _ & Hle) | Hlt']; [exact Hle |].
  apply Qlt_le_weak. exact Hlt'.
Qed.

(** Over a whole run of the repair that returns: both the selection handed
    in and the selection returned have been scanned, and the least pairwise
    distance of the selection returned is never below that of the selection
    handed in. *)
Theorem repair_never_lowers_minimum (all_cities : list (Z * City))
    (min_distance_km : Q) (fuel : nat) (selected_cities out : list (Z * City)) :
  post_process_city_selection fuel selected_cities all_cities min_distance_km
  = Some (Ok out) ->
  exists before after,
    closest_pair_scan selected_cities = Ok before
    /\ closest_pair_scan out = Ok after
    /\ xle (fst before) (fst after).
Proof.
  unfold post_process_city_selection.
  generalize (list_to_set (map fst selected_cities) : gset Z).
  revert selected_cities.
  induction fuel as [|fuel IH]; intros improved_cities selected_indices; simpl;
    [discriminate |].
  destruct (repair_iteration all_cities min_distance_km improved_cities
              selected_indices) as [df | df | df s | e] eqn:Estep.
  - destruct (repair_iteration_scanned all_cities min_distance_km improved_cities
                selected_indices) as [st Hst]; [congruence |].
    apply repair_iteration_converged in Estep. subst df.
    intros H. injection H as <-. exists st, st. auto using xle_refl.
  - destruct (repair_iteration_scanned all_cities min_distance_km improved_cities
                selected_indices) as [st Hst]; [congruence |].
    apply repair_iteration_stalled in Estep. subst df.
    intros H. injection H as <-. exists st, st. auto using xle_refl.
  - intros Hloop. apply IH in Hloop as (mid & after & Hmid & Hafter & Hle).
    destruct (replaced_scan_minimum _ _ _ _ _ _ Estep)
      as (before & mid' & Hbefore & Hmid' & Hle').
    rewrite Hmid in Hmid'. injection Hmid' as <-.
    exists before, after. split; [exact Hbefore |]. split; [exact Hafter |].
    eapply xle_trans; eassumption.
  - discriminate.
Qed.

(** The repair on its own, whatever selection and pool it is given: with
    enough fuel it ends, and it then raises [KeyError] or [ValueError], or
    returns a selection with the labels, hence the size, of the one handed
    in. *)
Theorem post_process_city_selection_ends
    (selected_cities all_cities : list (Z * City)) (min_distance_km : Q) :
  exists fuel,
    post_process_city_selection fuel selected_cities all_cities min_distance_km
    = Some (Raise KeyError)
    \/ post_process_city_selection fuel selected_cities all_cities
         min_distance_km = Some (Raise ValueError)
    \/ exists out,
         post_process_city_selection fuel selected_cities all_cities
           min_distance_km = Some (Ok out)
         /\ map fst out = map fst selected_cities.
Proof.
  unfold post_process_city_selection.
  destruct (repair_loop_ends haversine_distance_sym all_cities min_distance_km
              selected_cities (list_to_set (map fst selected_cities)))
    as (fuel & r & Hloop).
  exists fuel. rewrite Hloop.
  apply repair_loop_outcome in Hloop as [-> | [-> | (out & -> & Hl)]]; eauto.
Qed.

End PassOutcomes.

Section Stalling.

Context {ext : Externals}.

(** A pass gives up only when no row of the search set would do better:
    there is a pair closer than [min_distance_km], every row that gets past
    the membership test has been scored, and its score is not above the
    distance of that pair, or is not positive. *)
Theorem stalled_pass_has_no_better_candidate (all_cities : list (Z * City))
    (min_distance_km : Q) (improved_cities : list (Z * City))
    (selected_indices : gset Z) (df : list (Z * City)) :
  repair_iteration all_cities min_distance_km improved_cities selected_indices
  = Stalled df ->
  df = improved_cities
  /\ exists (min_dist : Q) (i j : Z) (city1 city2 : City),
       closest_pair_scan improved_cities = Ok (Fin min_dist, Some (i, j))
       /\ (min_dist < min_distance_km)%Q
       /\ loc improved_cities i = Row city1 /\ loc improved_cities j = Row city2
       /\ forall c : Z * City,
            In c all_cities -> fst c ∉ selected_indices ->
            exists score,
              candidate_score improved_cities
                (removal_target (population city1) (population city2) (i, j))
                (snd c) = Ok score
              /\ (xle score (Fin min_dist) \/ xle score (Fin 0)).
Proof.
  intros Hstep. split; [eapply repair_iteration_stalled; exact Hstep |].
  unfold repair_iteration in Hstep.
  destruct (closest_pair_scan improved_cities) as [[min_dist [[i j]|]]|e] eqn:Escan;
    try discriminate.
  destruct (xlt min_dist (Fin min_distance_km)) eqn:Elt; [| discriminate].
  destruct (loc improved_cities i) as [city1|rows1|] eqn:E1;
    destruct (loc improved_cities j) as [city2|rows2|] eqn:E2; try discriminate.
  destruct min_dist as [min_dist|]; [| discriminate].
  exists min_dist, i, j, city1, city2.
  unfold xlt in Elt. apply Qltb_lt in Elt.
  split; [reflexivity |]. split; [exact Elt |]. split; [exact E1 |].
  split; [exact E2 |].
  set (replace_idx := removal_target (population city1) (population city2) (i, j))
    in *.
  intros c Hc Hfree.
  assert (Hcand : In c (search_set all_cities selected_indices)).
  { apply list_elem_of_In. unfold search_set. apply list_elem_of_filter.
    split; [exact Hfree | apply list_elem_of_In; exact Hc]. }
  destruct (best_replacement_search all_cities selected_indices improved_cities
              replace_idx) as [st|e] eqn:Esearch; [| discriminate].
  rewrite best_replacement_search_search_set in Esearch.
  destruct (search_fold_first _ _ _ _ _ Esearch)
    as [[-> Hall] | (l1 & b & l2 & sb & Hl & Hb & -> & Hlt & H1 & H2)].
  - rewrite List.Forall_forall in Hall.
    destruct (Hall c Hcand) as (s & Hs & Hle). exists s. auto.
  - simpl in Hstep.
    destruct (xlt (Fin min_dist) sb) eqn:E;
      [destruct (bool_decide _); discriminate |].
    apply xlt_false_xle in E.
    rewrite Hl in Hcand. apply in_app_or in Hcand as [Hin | [<- | Hin]].
    + rewrite List.Forall_forall in H1.
      destruct (H1 c Hin) as (s & Hs & Hlt'). exists s. split; [exact Hs |].
      left. eapply xle_trans; [apply xlt_xle; exact Hlt' | exact E].
    + exists sb. auto.
    + rewrite List.Forall_forall in H2.
      destruct (H2 c Hin) as (s & Hs & Hle). exists s. split; [exact Hs |].
      left. eapply xle_trans; [exact Hle | exact E].
Qed.

End Stalling.

(** ** More on the greedy rounds *)

Lemma index_map {A B : Type} (f : A -> B) (l : list A) (j : nat) (x : A) :
  index l j = Ok x -> index (map f l) j = Ok (f x).
Proof.
  unfold index. rewrite nth_error_map.
  destruct (nth_error l j); simpl; congruence.
Qed.

Lemma mapM_index_map {A B : Type} (f : A -> B) (l : list A) (positions : list nat) :
  forall rows,
    mapM (index l) positions = Ok rows ->
    mapM (index (map f l)) positions = Ok (map f rows).
Proof.
  induction positions as [|p ps IH]; intros rows; simpl.
  - intros H. injection H as <-. reflexivity.
  - destruct (index l p) as [x|e] eqn:Ep; simpl; [| discriminate].
    destruct (mapM (index l) ps) as [rows'|e]; simpl; [| discriminate].
    intros H. injection H as <-.
    rewrite (index_map f l p x Ep), (IH rows' eq_refl). reflexivity.
Qed.

Lemma iloc_in_range {A : Type} (df : list (Z * A)) (positions : list nat)
    (rows : list (Z * A)) :
  iloc df positions = Ok rows ->
  forall j, In j positions -> (j < length df)%nat.
Proof.
  unfold iloc. intros H j Hj. apply In_nth_error in Hj as [k Hk].
  destruct (mapM_nth_error _ _ _ H) as [_ Hnth].
  destruct (Hnth k j Hk) as (y & _ & Hy). apply index_nth_error in Hy.
  apply nth_error_Some. congruence.
Qed.

Section GreedyRecords.

Context {ext : Externals}.

(** The score of a position is the isolation score of the row that the
    frame the coordinates come from has there. *)
Lemma position_score_isolation (frame : list (Z * City))
    (selected_indices : list nat) (selected_rows : list (Z * City)) (j : nat)
    (row : Z * City) :
  iloc frame selected_indices = Ok selected_rows ->
  nth_error frame j = Some row ->
  position_score (map (fun r : Z * City => coords_of (snd r)) frame)
    selected_indices j
  = isolation_score (map snd selected_rows) (snd row).
Proof.
  intros Hrows Hrow. unfold position_score, isolation_score.
  rewrite (mapM_index_map (fun r : Z * City => coords_of (snd r)) frame
             selected_indices selected_rows Hrows).
  simpl. apply index_nth_error in Hrow.
  rewrite (index_map (fun r : Z * City => coords_of (snd r)) frame j row Hrow).
  simpl. rewrite !map_map. reflexivity.
Qed.

(** A greedy round, read on the frame the coordinates were taken from:
    with distances that are not negative and a position still free, the
    round appends a free position whose row has the greatest isolation
    score among the rows not selected, the earliest such row on a tie. *)
Theorem greedy_round_maximizes_isolation (frame : list (Z * City))
    (selected_indices : list nat) (selected_rows : list (Z * City)) :
  (forall a b : Q * Q, (0 <= distances_km a b)%Q) ->
  selected_indices <> [] ->
  List.NoDup selected_indices ->
  (length selected_indices < length frame)%nat ->
  iloc frame selected_indices = Ok selected_rows ->
  exists (k : nat) (row_k : Z * City) (score_k : Q),
    greedy_round (map (fun r : Z * City => coords_of (snd r)) frame)
      (length frame) selected_indices
    = Ok (selected_indices ++ [k])
    /\ nth_error frame k = Some row_k
    /\ ~ In k selected_indices
    /\ isolation_score (map snd selected_rows) (snd row_k) = Ok score_k
    /\ forall (j : nat) (row_j : Z * City),
         nth_error frame j = Some row_j -> ~ In j selected_indices ->
         exists score_j : Q,
           isolation_score (map snd selected_rows) (snd row_j) = Ok score_j
           /\ (score_j <= score_k)%Q
           /\ ((j < k)%nat -> (score_j < score_k)%Q).
Proof.
  intros Hnonneg Hne Hnd Hfree Hrows.
  destruct (greedy_round_ok Hnonneg
              (map (fun r : Z * City => coords_of (snd r)) frame)
              (length frame) selected_indices)
    as (k & Hround & Hk & Hknew & score_k & Hscore_k & Hmax); auto.
  { apply length_map. }
  { apply (iloc_in_range _ _ _ Hrows). }
  destruct (nth_error frame k) as [row_k|] eqn:Erow;
    [| apply nth_error_None in Erow; lia].
  exists k, row_k, score_k.
  split; [exact Hround |]. split; [exact Erow |]. split; [exact Hknew |].
  split.
  - rewrite <- (position_score_isolation frame selected_indices selected_rows k)
      by assumption. exact Hscore_k.
  - intros j row_j Hj Hjn.
    destruct (Hmax j) as (score_j & Hscore_j & Hle & Hlt); [| exact Hjn |].
    { apply nth_error_Some. congruence. }
    exists score_j. split; [| split; assumption].
    rewrite <- (position_score_isolation frame selected_indices selected_rows j)
      by assumption. exact Hscore_j.
Qed.

(** Asking for one city or fewer, also for none or for a negative number:
    the run returns one row, the first of the sorted frame, and the repair
    has nothing to do. *)
Theorem one_city_when_at_most_one_requested (fuel : nat)
    (cities_df : list (Z * RawCity)) (n_cities : Z) (min_distance_km : Q)
    (first : Z * City) (rest : list (Z * City)) :
  n_cities <= 1 ->
  sort_values (dropna cities_df) = first :: rest ->
  select_dispersed_cities (S fuel) cities_df n_cities min_distance_km
  = Some (Ok [(0, snd first)]).
Proof.
  intros Hn Hsorted. unfold select_dispersed_cities, greedy_selection.
  rewrite Hsorted.
  replace (Z.to_nat
             ((if Z.of_nat (length (dropna cities_df)) <? n_cities
               then Z.of_nat (length (dropna cities_df)) else n_cities) - 1))
    with 0%nat
    by (destruct (Z.ltb_spec (Z.of_nat (length (dropna cities_df))) n_cities); lia).
  reflexivity.
Qed.

End GreedyRecords.

(** ** A request for the whole pool *)

Lemma rows_at_values {A : Type} (pool selection : list (Z * A))
    (positions : list nat) :
  rows_at pool selection positions ->
  map snd selection = omap (nth_error (map snd pool)) positions
  /\ forall p, In p positions -> (p < length pool)%nat.
Proof.
  unfold rows_at. induction 1 as [|row p df positions [l Hrow] _ [IH1 IH2]].
  - split; [reflexivity | intros p []].
  - split.
    + change (omap (nth_error (map snd pool)) (p :: positions))
        with (match nth_error (map snd pool) p with
              | Some x => x :: omap (nth_error (map snd pool)) positions
              | None => omap (nth_error (map snd pool)) positions
              end).
      rewrite nth_error_map, Hrow. simpl. rewrite IH1. reflexivity.
    + intros q [<- | Hq]; [| auto]. apply nth_error_Some. congruence.
Qed.

Lemma omap_nth_error_seq {A : Type} (l : list A) :
  omap (nth_error l) (seq 0 (length l)) = l.
Proof.
  induction l as [|x l IH]; [reflexivity |].
  simpl length. rewrite <- cons_seq, <- seq_shift.
  change (omap (nth_error (x :: l)) (0%nat :: map S (seq 0 (length l))))
    with (x :: omap (nth_error (x :: l)) (map S (seq 0 (length l)))).
  f_equal. rewrite <- IH at 3.
  generalize (seq 0 (length l)). intros ps.
  induction ps as [|p ps IHps]; [reflexivity |].
  simpl map.
  change (omap (nth_error (x :: l)) (S p :: map S ps))
    with (match nth_error l p with
          | Some y => y :: omap (nth_error (x :: l)) (map S ps)
          | None => omap (nth_error (x :: l)) (map S ps)
          end).
  change (omap (nth_error l) (p :: ps))
    with (match nth_error l p with
          | Some y => y :: omap (nth_error l) ps
          | None => omap (nth_error l) ps
          end).
  rewrite IHps. reflexivity.
Qed.

(** A selection that holds the rows of the pool at pairwise different
    positions, as many as the pool has, holds the whole pool. *)
Lemma rows_at_all {A : Type} (pool selection : list (Z * A))
    (positions : list nat) :
  rows_at pool selection positions -> List.NoDup positions ->
  length selection = length pool ->
  Permutation (map snd selection) (map snd pool).
Proof.
  intros Hrows Hnd Hlen.
  destruct (rows_at_values _ _ _ Hrows) as [Hvalues Hrange].
  assert (Hplen : length positions = length selection)
    by (symmetry; apply (Forall2_length _ _ _ Hrows)).
  assert (Hperm : Permutation positions (seq 0 (length pool))).
  { apply NoDup_Permutation_bis; [exact Hnd | rewrite length_seq; lia |].
    intros p Hp. apply in_seq. specialize (Hrange p Hp). lia. }
  rewrite Hvalues.
  rewrite (omap_Permutation (nth_error (map snd pool)) _ _ Hperm).
  rewrite <- (length_map snd pool), omap_nth_error_seq. reflexivity.
Qed.

Section WholePool.

Context {ext : Externals}.

Lemma best_replacement_search_defined (all_cities : list (Z * City))
    (selected_indices : gset Z) (improved_cities : list (Z * City))
    (replace_idx : Z) :
  (forall c row : Z * City,
     In c all_cities -> In row improved_cities ->
     exists d, city_distance (snd c) (snd row) = Ok d) ->
  exists st,
    best_replacement_search all_cities selected_indices improved_cities
      replace_idx = Ok st.
Proof.
  unfold best_replacement_search. generalize (@None (Z * City), Fin 0).
  induction all_cities as [|c l IH]; intros st Hall; simpl; [eauto |].
  assert (Hl : forall c' row : Z * City,
             In c' l -> In row improved_cities ->
             exists d, city_distance (snd c') (snd row) = Ok d)
    by (intros c' row Hc'; apply Hall; right; exact Hc').
  destruct (bool_decide (fst c ∈ selected_indices)); simpl; [apply IH; exact Hl |].
  unfold search_step at 1.
  destruct (candidate_score_defined improved_cities replace_idx (snd c))
    as [score ->].
  { intros row Hrow _. apply Hall; [left; reflexivity | exact Hrow]. }
  simpl. apply IH. exact Hl.
Qed.

(** Over pairwise different labels, a pass raises [ValueError] only where a
    distance it asks for is not defined. *)
Lemma pass_with_distances_raises_no_value_error (all_cities : list (Z * City))
    (min_distance_km : Q) (improved_cities : list (Z * City))
    (selected_indices : gset Z) :
  List.NoDup (map fst improved_cities) ->
  (forall r1 r2 : Z * City,
     In r1 improved_cities -> In r2 improved_cities ->
     exists d, city_distance (snd r1) (snd r2) = Ok d) ->
  (forall c row : Z * City,
     In c all_cities -> In row improved_cities ->
     exists d, city_distance (snd c) (snd row) = Ok d) ->
  repair_iteration all_cities min_distance_km improved_cities selected_indices
  <> Aborted ValueError.
Proof.
  intros Hnd Hsel Hpool. unfold repair_iteration.
  destruct (closest_pair_scan_defined improved_cities) as [[min_dist cp] Hscan].
  { intros r1 r2 H1 H2 _. apply Hsel; assumption. }
  rewrite Hscan. destruct cp as [[i j]|]; [| discriminate].
  apply closest_pair_scan_some in Hscan
    as (r1 & r2 & d & H1 & H2 & Hi & Hj & _ & _ & _).
  destruct (xlt min_dist (Fin min_distance_km)); [| discriminate].
  rewrite <- Hi, <- Hj, (loc_in _ _ Hnd H1), (loc_in _ _ Hnd H2).
  destruct (best_replacement_search_defined all_cities selected_indices
              improved_cities
              (removal_target (population (snd r1)) (population (snd r2))
                 (fst r1, fst r2)) Hpool) as [[[best|] v] ->];
    [| discriminate].
  destruct (xlt min_dist v); [| discriminate].
  destruct (bool_decide _); discriminate.
Qed.

Hypothesis haversine_distance_sym :
  forall la1 lo1 la2 lo2 d : Q,
    haversine_distance la1 lo1 la2 lo2 = Some d ->
    exists d', haversine_distance la2 lo2 la1 lo1 = Some d' /\ d' == d.

Hypothesis haversine_distance_self :
  forall la lo d : Q, haversine_distance la lo la lo = Some d -> d == 0.

(** When every city of the pool is in the selection already, a pass finds
    nothing to put in: the only candidate that is not at distance 0 of a row
    that stays is the city to be removed, and it is no farther from the
    other city of the pair than it was. *)
Lemma pass_over_whole_pool (all_cities : list (Z * City)) (min_distance_km : Q)
    (improved_cities : list (Z * City)) (selected_indices : gset Z) :
  List.NoDup (map fst improved_cities) ->
  incl (map snd all_cities) (map snd improved_cities) ->
  repair_iteration all_cities min_distance_km improved_cities selected_indices
  = Converged improved_cities
  \/ repair_iteration all_cities min_distance_km improved_cities selected_indices
     = Stalled improved_cities
  \/ repair_iteration all_cities min_distance_km improved_cities selected_indices
     = Aborted ValueError.
Proof.
  intros Hnd Hall. unfold repair_iteration.
  destruct (closest_pair_scan improved_cities) as [[min_dist [[i j]|]]|e] eqn:Escan;
    [| left; reflexivity
     | apply closest_pair_scan_raises in Escan; subst e; right; right; reflexivity].
  apply closest_pair_scan_some in Escan
    as (r1 & r2 & d & H1 & H2 & Hi & Hj & Hlt & Hd & ->).
  destruct (xlt (Fin d) (Fin min_distance_km)); [| left; reflexivity].
  rewrite <- Hi, <- Hj, (loc_in _ _ Hnd H1), (loc_in _ _ Hnd H2).
  destruct (best_replacement_search all_cities selected_indices improved_cities
              (removal_target (population (snd r1)) (population (snd r2))
                 (fst r1, fst r2)))
    as [[[best|] max_min_distance]|e] eqn:Ebest;
    [| right; left; reflexivity
     | apply best_replacement_search_raises in Ebest; subst e; right; right;
       reflexivity].
  right. left.
  destruct (xlt (Fin d) max_min_distance) eqn:Ebetter; [| reflexivity].
  exfalso.
  pose proof (replacement_far _ _ _ _ _ _ _ Ebest Ebetter) as Hfar.
  pose proof (replacement_is_new haversine_distance_self _ _ _ _ _ _ Ebest)
    as Hnew.
  pose proof (best_replacement_search_ok _ _ _ _ _ Ebest) as (Hin & _).
  simpl in Hin.
  apply (in_map snd) in Hin. apply Hall in Hin.
  apply in_map_iff in Hin as (row & Hrow & Hin).
  assert (Hlabel : fst row
                   = removal_target (population (snd r1)) (population (snd r2))
                       (fst r1, fst r2)).
  { destruct (Z.eq_dec (fst row)
                (removal_target (population (snd r1)) (population (snd r2))
                   (fst r1, fst r2))) as [Heq | Hne]; [exact Heq |].
    exfalso. apply (Hnew row Hin Hne). exact Hrow. }
  pose proof (loc_in _ _ Hnd Hin) as Hloc.
  unfold removal_target in *.
  destruct (population (snd r1) <? population (snd r2)); simpl in *.
  - rewrite Hlabel, (loc_in _ _ Hnd H1) in Hloc. injection Hloc as Hc.
    destruct (Hfar r2 H2 ltac:(lia)) as (d' & Hd' & Hlt').
    rewrite <- Hrow, <- Hc, Hd in Hd'. injection Hd' as <-.
    apply (Qlt_irrefl _ Hlt').
  - rewrite Hlabel, (loc_in _ _ Hnd H2) in Hloc. injection Hloc as Hc.
    destruct (Hfar r1 H1 ltac:(lia)) as (d' & Hd' & Hlt').
    destruct (city_distance_sym haversine_distance_sym _ _ _ Hd)
      as (d'' & Hd'' & Heq).
    rewrite <- Hrow, <- Hc, Hd'' in Hd'. injection Hd' as <-.
    rewrite Heq in Hlt'. apply (Qlt_irrefl _ Hlt').
Qed.

(** Asking for as many cities as the catalog has with coordinates, or for
    more: the greedy rounds take every row and the repair finds nothing to
    exchange whatever [min_distance_km] is, so that the run returns the
    whole pool, each row once, under new labels, unless a distance is not
    defined; it does return where the distance between every two rows of
    the catalog is defined. *)
Theorem whole_pool_is_returned (fuel : nat) (cities_df : list (Z * RawCity))
    (n_cities : Z) (min_distance_km : Q) :
  Permutation (sort_values (dropna cities_df)) (dropna cities_df) ->
  (forall a b : Q * Q, (0 <= distances_km a b)%Q) ->
  dropna cities_df <> [] ->
  Z.of_nat (length (dropna cities_df)) <= n_cities ->
  exists out : list (Z * City),
    greedy_selection cities_df n_cities = Ok (sort_values (dropna cities_df), out)
    /\ Permutation (map snd out) (map snd (dropna cities_df))
    /\ (select_dispersed_cities (S fuel) cities_df n_cities min_distance_km
        = Some (Ok out)
        \/ select_dispersed_cities (S fuel) cities_df n_cities min_distance_km
           = Some (Raise ValueError))
    /\ ((forall r1 r2 : Z * City,
           In r1 (dropna cities_df) -> In r2 (dropna cities_df) ->
           exists d, city_distance (snd r1) (snd r2) = Ok d) ->
        select_dispersed_cities (S fuel) cities_df n_cities min_distance_km
        = Some (Ok out)).
Proof.
  intros Hperm Hnonneg Hne Hn.
  destruct (greedy_selection_ok cities_df Hperm Hnonneg n_cities Hne)
    as (sel & positions & Hsel & Hlen & Hlabels & Hnd & Hrows).
  assert (Hall : Permutation (map snd sel) (map snd (sort_values (dropna cities_df)))).
  { apply (rows_at_all _ _ positions); [exact Hrows | exact Hnd |].
    rewrite (Permutation_length Hperm).
    assert (1 <= length (dropna cities_df))%nat
      by (destruct (dropna cities_df); [congruence | simpl; lia]).
    lia. }
  assert (Hincl : incl (map snd (sort_values (dropna cities_df))) (map snd sel))
    by (intros c Hc; apply (Permutation_in _ (Permutation_sym Hall)); exact Hc).
  exists sel. split; [exact Hsel |].
  split; [rewrite Hall; apply Permutation_map; exact Hperm |].
  unfold select_dispersed_cities. rewrite Hsel.
  unfold post_process_city_selection. simpl.
  pose proof (pass_over_whole_pool (sort_values (dropna cities_df))
                min_distance_km sel (list_to_set (map fst sel)) Hlabels Hincl)
    as Hpass.
  split.
  - destruct Hpass as [-> | [-> | ->]]; auto.
  - intros Hdefined.
    assert (Hcities : forall r1 r2 : Z * City,
               In (snd r1) (map snd (dropna cities_df)) ->
               In (snd r2) (map snd (dropna cities_df)) ->
               exists d, city_distance (snd r1) (snd r2) = Ok d).
    { intros r1 r2 Hr1 Hr2.
      apply in_map_iff in Hr1 as (x1 & <- & Hx1).
      apply in_map_iff in Hr2 as (x2 & <- & Hx2). apply Hdefined; assumption. }
    assert (Hsel_in : forall r : Z * City,
               In r sel -> In (snd r) (map snd (dropna cities_df))).
    { intros r Hr. apply (Permutation_in (snd r) (Permutation_map snd Hperm)).
      apply (Permutation_in _ Hall). apply in_map. exact Hr. }
    assert (Hpool_in : forall r : Z * City,
               In r (sort_values (dropna cities_df)) ->
               In (snd r) (map snd (dropna cities_df))).
    { intros r Hr. apply (Permutation_in (snd r) (Permutation_map snd Hperm)).
      apply in_map. exact Hr. }
    pose proof (pass_with_distances_raises_no_value_error
                  (sort_values (dropna cities_df)) min_distance_km sel
                  (list_to_set (map fst sel)) Hlabels) as Hno.
    destruct Hpass as [-> | [-> | Hraise]]; [reflexivity | reflexivity |].
    exfalso. apply Hno; [| | exact Hraise].
    + intros r1 r2 H1 H2. apply Hcities; apply Hsel_in; assumption.
    + intros c row H1 H2. apply Hcities; [apply Hpool_in | apply Hsel_in];
        assumption.
Qed.

End WholePool.
(** ** Where [ValueError] comes from *)

Section DefinedDistances.

Context {ext : Externals}.



End DefinedDistances.

Section UndefinedDistances.

Context {ext : Externals}.

Lemma scan_fold_undefined (l : list ((Z * City) * (Z * City)))
    (p : (Z * City) * (Z * City)) (e : exn) :
  In p l -> pair_distance p = Raise e ->
  forall st, foldM scan_pair l st = Raise ValueError.
Proof.
  intros Hin Hp. induction l as [|q l IH]; intros st; simpl; [destruct Hin |].
  unfold scan_pair at 1.
  destruct (pair_distance q) as [dq|e'] eqn:Eq; simpl.
  - destruct Hin as [-> | Hin]; [congruence | apply IH; exact Hin].
  - unfold pair_distance in Eq. apply city_distance_raises in Eq. subst e'.
    reflexivity.
Qed.

(** A selection that holds two rows whose distance is not defined, the
    first under the smaller label, is not repaired: the first scan raises
    [ValueError], whatever [min_distance_km] and the pool are and however
    far apart the other rows are. *)
Theorem undefined_distance_in_selection_raises (fuel : nat)
    (selected_cities all_cities : list (Z * City)) (min_distance_km : Q)
    (r1 r2 : Z * City) :
  In r1 selected_cities -> In r2 selected_cities -> fst r1 < fst r2 ->
  haversine_distance (lat (snd r1)) (lng (snd r1)) (lat (snd r2)) (lng (snd r2))
  = None ->
  post_process_city_selection (S fuel) selected_cities all_cities min_distance_km
  = Some (Raise ValueError).
Proof.
  intros H1 H2 Hlt Hraise. unfold post_process_city_selection. simpl.
  unfold repair_iteration. rewrite closest_pair_scan_pairs.
  rewrite (scan_fold_undefined (scanned_pairs selected_cities) (r1, r2) ValueError);
    [reflexivity | apply in_scanned_pairs; auto |].
  unfold pair_distance, city_distance. simpl. rewrite Hraise. reflexivity.
Qed.

End UndefinedDistances.

(** ** The seed of the greedy rounds *)

Section GreedySeed.

Context {ext : Externals}.

Lemma greedy_rounds_prefix (coords_rad : list (Q * Q)) (n_valid : nat)
    (rounds : nat) :
  forall selected_indices out : list nat,
    greedy_rounds rounds coords_rad n_valid selected_indices = Ok out ->
    exists rest, out = selected_indices ++ rest.
Proof.
  induction rounds as [|rounds IH]; intros selected_indices out; simpl.
  - intros H. injection H as <-. exists []. rewrite app_nil_r. reflexivity.
  - destruct (greedy_round coords_rad n_valid selected_indices)
      as [selected_indices'|e] eqn:Eround; simpl; [| discriminate].
    intros H. apply IH in H as [rest ->].
    unfold greedy_round in Eround.
    destruct (mapM (index coords_rad) selected_indices) as [selected_coords|e];
      simpl in Eround; [| discriminate].
    destruct (mapM _ (seq 0 n_valid)) as [min_distances|e];
      simpl in Eround; [| discriminate].
    destruct (np_argmax min_distances) as [k|e]; simpl in Eround;
      [| discriminate].
    injection Eround as <-. exists (k :: rest). rewrite <- app_assoc.
    reflexivity.
Qed.

(** The rounds only append: whenever the greedy part does not raise, the
    first row of the sorted frame is the row it hands over under label 0,
    however many cities were asked for. *)
Theorem greedy_selection_keeps_seed (cities_df : list (Z * RawCity))
    (n_cities : Z) (pool selected_cities : list (Z * City)) :
  greedy_selection cities_df n_cities = Ok (pool, selected_cities) ->
  exists (first : Z * City) (rest others : list (Z * City)),
    sort_values (dropna cities_df) = first :: rest
    /\ pool = first :: rest
    /\ selected_cities = (0, snd first) :: others.
Proof.
  unfold greedy_selection.
  destruct (greedy_rounds _ _ _ [0%nat]) as [positions|e] eqn:Erounds; simpl;
    [| discriminate].
  apply greedy_rounds_prefix in Erounds as [ps ->].
  unfold iloc. simpl mapM.
  destruct (index (sort_values (dropna cities_df)) 0) as [first|e] eqn:Efirst;
    simpl; [| discriminate].
  destruct (mapM (index (sort_values (dropna cities_df))) ps) as [rows|e];
    simpl; [| discriminate].
  intros H. injection H as <- <-.
  apply index_nth_error in Efirst.
  destruct (sort_values (dropna cities_df)) as [|r rest]; [discriminate |].
  injection Efirst as ->.
  exists first, rest, (reset_index_from (0 + 1) rows). auto.
Qed.

End GreedySeed.

(** ** What a replacement does to [selected_indices] *)

Section SetDrift.

Context {ext : Externals}.

(** After an accepted replacement the row put in sits under the label of
    the row it replaced, while [selected_indices] has lost that label and
    gained the label the new row has in the pool: the frame then has a
    label that the set does not hold. *)
Theorem replaced_label_leaves_the_set (all_cities : list (Z * City))
    (min_distance_km : Q) (improved_cities : list (Z * City))
    (selected_indices : gset Z) (improved_cities' : list (Z * City))
    (selected_indices' : gset Z) :
  repair_iteration all_cities min_distance_km improved_cities selected_indices
  = Replaced improved_cities' selected_indices' ->
  exists (replace_idx : Z) (best : Z * City),
    In best all_cities
    /\ (fst best ∉ selected_indices)
    /\ replace_idx ∈ selected_indices
    /\ improved_cities' = set_loc improved_cities replace_idx (snd best)
    /\ loc improved_cities' replace_idx = Row (snd best)
    /\ fst best ∈ selected_indices'
    /\ replace_idx ∉ selected_indices'.
Proof.
  intros Hstep.
  apply repair_iteration_replaced in Hstep
    as (min_dist & i & j & city1 & city2 & best & v
        & Hscan & Hviol & Hc1 & Hc2 & Hbest & Hbetter & Hmem & -> & ->).
  set (replace_idx := removal_target (population city1) (population city2) (i, j))
    in *.
  pose proof (best_replacement_search_ok _ _ _ _ _ Hbest) as (Hin & Hfree & _).
  simpl in Hin, Hfree.
  exists replace_idx, best.
  split; [exact Hin |]. split; [exact Hfree |]. split; [exact Hmem |].
  split; [reflexivity |]. split; [| split].
  2: { apply elem_of_union_l, elem_of_singleton. reflexivity. }
  2: { intros H. apply elem_of_union in H as [H | H].
       - apply elem_of_singleton in H. apply Hfree. rewrite <- H. exact Hmem.
       - apply elem_of_difference in H as [_ H]. apply H, elem_of_singleton.
         reflexivity. }
  unfold replace_idx, removal_target.
  destruct (population city1 <? population city2); simpl;
    eapply loc_set_loc; eassumption.
Qed.

(** On a selection in which the distance between every two rows under
    different labels is defined and at least [min_distance_km], the repair
    stops in its first pass and returns the selection unchanged, whatever
    the pool is. *)
Theorem repair_returns_separated_selection (fuel : nat)
    (selected_cities all_cities : list (Z * City)) (min_distance_km : Q) :
  separated min_distance_km selected_cities ->
  post_process_city_selection (S fuel) selected_cities all_cities min_distance_km
  = Some (Ok selected_cities).
Proof.
  intros Hsep. unfold post_process_city_selection. simpl.
  rewrite repair_iteration_separated by exact Hsep. reflexivity.
Qed.

(** With a threshold of 0 or below, distances that are never negative and a
    selection whose pairwise distances are defined, the repair has nothing
    to do: the first pass answers that all cities are far enough apart and
    the selection comes back as it was. *)
Theorem nonpositive_threshold_disables_repair (fuel : nat)
    (selected_cities all_cities : list (Z * City)) (min_distance_km : Q) :
  (forall la1 lo1 la2 lo2 d : Q,
     haversine_distance la1 lo1 la2 lo2 = Some d -> (0 <= d)%Q) ->
  (forall r1 r2 : Z * City,
     In r1 selected_cities -> In r2 selected_cities -> fst r1 < fst r2 ->
     exists d, city_distance (snd r1) (snd r2) = Ok d) ->
  (min_distance_km <= 0)%Q ->
  post_process_city_selection (S fuel) selected_cities all_cities min_distance_km
  = Some (Ok selected_cities).
Proof.
  intros Hnonneg Hdefined Hm. unfold post_process_city_selection. simpl.
  unfold repair_iteration.
  destruct (closest_pair_scan_defined selected_cities Hdefined) as [st Hscan].
  rewrite Hscan.
  destruct (closest_pair_scan_first _ _ Hscan)
    as [[_ ->] | (l1 & [r1 r2] & l2 & d & _ & Hp & -> & _ & _)]; [reflexivity |].
  unfold pair_labels. simpl fst. simpl snd.
  replace (xlt (Fin d) (Fin min_distance_km)) with false; [reflexivity |].
  symmetry. unfold xlt. apply Qltb_ge. eapply Qle_trans; [exact Hm |].
  unfold pair_distance, city_distance in Hp.
  destruct (haversine_distance _ _ _ _) as [d0|] eqn:E; [| discriminate].
  injection Hp as <-. eapply Hnonneg. exact E.
Qed.

End SetDrift.

(** ** Worked examples of the further properties *)

(** [unsorted_catalog] loaded with a floor of 50, which drops A. *)
Lemma selection_respects_population_floor_witness :
  0 < 50
  /\ select_dispersed_cities (ext := equator) 3
       (load_city_data unsorted_catalog 50) 2 500
     = Some (Ok [(0, mkCity "B" 0 1 100); (1, mkCity "C" 0 10 50)])
  /\ forall row : Z * City,
       In row [(0, mkCity "B" 0 1 100); (1, mkCity "C" 0 10 50)] ->
       50 <= population (snd row).
Proof.
  split; [lia |]. split; [vm_compute; reflexivity |].
  apply (selection_respects_population_floor (ext := equator) 3
           unsorted_catalog 50 2 500).
  - lia.
  - vm_compute. apply Permutation_refl.
  - vm_compute. reflexivity.
Defined.

(** The search of the pass on [tied_selection], which finds X. *)
Lemma best_replacement_is_first_maximum_witness :
  exists st : option (Z * City) * xfloat,
    best_replacement_search (ext := equator) tied_pool
      (list_to_set (map fst tied_selection)) tied_selection 1 = Ok st
    /\ ((st = (None, Fin 0)
         /\ Forall
              (fun c : Z * City =>
                 exists s,
                   candidate_score (ext := equator) tied_selection 1 (snd c) = Ok s
                   /\ xle s (Fin 0))
              (search_set tied_pool (list_to_set (map fst tied_selection))))
        \/ exists l1 b l2 sb,
             search_set tied_pool (list_to_set (map fst tied_selection))
             = (l1 ++ b :: l2)%list
             /\ candidate_score (ext := equator) tied_selection 1 (snd b) = Ok sb
             /\ st = (Some b, sb)
             /\ xlt (Fin 0) sb = true
             /\ Forall
                  (fun c : Z * City =>
                     exists s,
                       candidate_score (ext := equator) tied_selection 1 (snd c)
                       = Ok s /\ xlt s sb = true) l1
             /\ Forall
                  (fun c : Z * City =>
                     exists s,
                       candidate_score (ext := equator) tied_selection 1 (snd c)
                       = Ok s /\ xle s sb) l2).
Proof.
  eexists. split; [vm_compute; reflexivity |].
  apply (best_replacement_is_first_maximum (ext := equator) tied_pool
           (list_to_set (map fst tied_selection)) tied_selection 1).
  vm_compute. reflexivity.
Defined.

(** The first pass on [tied_selection]. *)
Lemma pass_with_known_labels_raises_no_key_error_witness :
  (forall label : Z,
     In label (map fst tied_selection) ->
     label ∈ (list_to_set (map fst tied_selection) : gset Z))
  /\ repair_iteration (ext := equator) tied_pool 500 tied_selection
       (list_to_set (map fst tied_selection))
     <> Aborted KeyError.
Proof.
  assert (H : forall label : Z,
             In label (map fst tied_selection) ->
             label ∈ (list_to_set (map fst tied_selection) : gset Z)).
  { intros label Hl. apply elem_of_list_to_set, list_elem_of_In. exact Hl. }
  split; [exact H |].
  apply (pass_with_known_labels_raises_no_key_error (ext := equator) tied_pool
           500 tied_selection (list_to_set (map fst tied_selection)) H).
Defined.

(** M and X, a quarter of the equator apart. *)
Lemma converged_iff_separated_witness :
  repair_iteration (ext := equator) tied_pool 500
    [(0, M_city); (1, X_city)] (list_to_set [0; 1])
  = Converged [(0, M_city); (1, X_city)]
  <-> separated (ext := equator) 500 [(0, M_city); (1, X_city)].
Proof.
  apply (converged_iff_separated (ext := equator) equator_haversine_distance_sym
           tied_pool 500 [(0, M_city); (1, X_city)] (list_to_set [0; 1])).
Defined.

(** The repair of [tied_selection], which exchanges E for X. *)
Lemma repair_never_lowers_minimum_witness :
  post_process_city_selection (ext := equator) 3 tied_selection tied_pool 500
  = Some (Ok [(0, M_city); (1, X_city); (2, W_city)])
  /\ exists before after,
       closest_pair_scan (ext := equator) tied_selection = Ok before
       /\ closest_pair_scan (ext := equator)
            [(0, M_city); (1, X_city); (2, W_city)] = Ok after
       /\ xle (fst before) (fst after).
Proof.
  assert (H : post_process_city_selection (ext := equator) 3 tied_selection
                tied_pool 500
              = Some (Ok [(0, M_city); (1, X_city); (2, W_city)]))
    by (vm_compute; reflexivity).
  split; [exact H |].
  apply (repair_never_lowers_minimum (ext := equator)
           equator_haversine_distance_sym tied_pool 500 3 tied_selection
           [(0, M_city); (1, X_city); (2, W_city)] H).
Defined.

Lemma post_process_city_selection_ends_witness :
  exists fuel,
    post_process_city_selection (ext := equator) fuel tied_selection
      tied_pool 500 = Some (Raise KeyError)
    \/ post_process_city_selection (ext := equator) fuel tied_selection
         tied_pool 500 = Some (Raise ValueError)
    \/ exists out,
         post_process_city_selection (ext := equator) fuel tied_selection
           tied_pool 500 = Some (Ok out)
         /\ map fst out = map fst tied_selection.
Proof.
  apply (post_process_city_selection_ends (ext := equator)
           equator_haversine_distance_sym tied_selection tied_pool 500).
Defined.

(** The pass on the selection A, C that the greedy rounds build from
    [small_catalog]: the only row that gets past the membership test is C
    itself, which is as close to A as before. *)
Lemma stalled_pass_has_no_better_candidate_witness :
  repair_iteration (ext := equator) (dropna small_catalog) 500
    [(0, mkCity "A" 0 0 100); (1, mkCity "C" 0 2 10)] (list_to_set [0; 1])
  = Stalled [(0, mkCity "A" 0 0 100); (1, mkCity "C" 0 2 10)]
  /\ exists (min_dist : Q) (i j : Z) (city1 city2 : City),
       closest_pair_scan (ext := equator)
         [(0, mkCity "A" 0 0 100); (1, mkCity "C" 0 2 10)]
       = Ok (Fin min_dist, Some (i, j))
       /\ (min_dist < 500)%Q
       /\ loc [(0, mkCity "A" 0 0 100); (1, mkCity "C" 0 2 10)] i = Row city1
       /\ loc [(0, mkCity "A" 0 0 100); (1, mkCity "C" 0 2 10)] j = Row city2
       /\ forall c : Z * City,
            In c (dropna small_catalog) ->
            fst c ∉ (list_to_set [0; 1] : gset Z) ->
            exists score,
              candidate_score (ext := equator)
                [(0, mkCity "A" 0 0 100); (1, mkCity "C" 0 2 10)]
                (removal_target (population city1) (population city2) (i, j))
                (snd c) = Ok score
              /\ (xle score (Fin min_dist) \/ xle score (Fin 0)).
Proof.
  assert (H : repair_iteration (ext := equator) (dropna small_catalog) 500
                [(0, mkCity "A" 0 0 100); (1, mkCity "C" 0 2 10)]
                (list_to_set [0; 1])
              = Stalled [(0, mkCity "A" 0 0 100); (1, mkCity "C" 0 2 10)])
    by (vm_compute; reflexivity).
  split; [exact H |].
  apply (stalled_pass_has_no_better_candidate (ext := equator)
           (dropna small_catalog) 500
           [(0, mkCity "A" 0 0 100); (1, mkCity "C" 0 2 10)]
           (list_to_set [0; 1])
           [(0, mkCity "A" 0 0 100); (1, mkCity "C" 0 2 10)] H).
Defined.

(** A run on [small_catalog]. *)
Lemma select_dispersed_cities_ends_witness :
  Permutation (sort_values (Externals := equator) (dropna small_catalog))
    (dropna small_catalog)
  /\ dropna small_catalog <> []
  /\ exists fuel,
       select_dispersed_cities (ext := equator) fuel small_catalog 2 500
       = Some (Raise KeyError)
       \/ select_dispersed_cities (ext := equator) fuel small_catalog 2 500
          = Some (Raise ValueError)
       \/ exists out,
            select_dispersed_cities (ext := equator) fuel small_catalog 2 500
            = Some (Ok out)
            /\ Z.of_nat (length out)
               = Z.max 1 (Z.min 2 (Z.of_nat (length (dropna small_catalog)))).
Proof.
  assert (Hperm : Permutation
                    (sort_values (Externals := equator) (dropna small_catalog))
                    (dropna small_catalog))
    by (vm_compute; apply Permutation_refl).
  assert (Hne : dropna small_catalog <> []) by (vm_compute; discriminate).
  split; [exact Hperm |]. split; [exact Hne |].
  apply (select_dispersed_cities_ends (ext := equator) small_catalog 2 500
           equator_haversine_distance_sym Hperm equator_distances_km_nonneg Hne).
Defined.

(** The first round on [small_catalog]: A is selected, and C, two degrees
    away, is taken before B. *)
Lemma greedy_round_maximizes_isolation_witness :
  iloc (dropna small_catalog) [0%nat] = Ok [(0, mkCity "A" 0 0 100)]
  /\ exists (k : nat) (row_k : Z * City) (score_k : Q),
       greedy_round (ext := equator)
         (map (fun r : Z * City => coords_of (ext := equator) (snd r))
            (dropna small_catalog))
         (length (dropna small_catalog)) [0%nat]
       = Ok ([0%nat] ++ [k])
       /\ nth_error (dropna small_catalog) k = Some row_k
       /\ ~ In k [0%nat]
       /\ isolation_score (ext := equator)
            (map snd [(0, mkCity "A" 0 0 100)]) (snd row_k) = Ok score_k
       /\ forall (j : nat) (row_j : Z * City),
            nth_error (dropna small_catalog) j = Some row_j ->
            ~ In j [0%nat] ->
            exists score_j : Q,
              isolation_score (ext := equator)
                (map snd [(0, mkCity "A" 0 0 100)]) (snd row_j) = Ok score_j
              /\ (score_j <= score_k)%Q
              /\ ((j < k)%nat -> (score_j < score_k)%Q).
Proof.
  assert (Hrows : iloc (dropna small_catalog) [0%nat]
                  = Ok [(0, mkCity "A" 0 0 100)]) by reflexivity.
  split; [exact Hrows |].
  apply (greedy_round_maximizes_isolation (ext := equator)
           (dropna small_catalog) [0%nat] [(0, mkCity "A" 0 0 100)]).
  - exact equator_distances_km_nonneg.
  - discriminate.
  - constructor; [intros [] | constructor].
  - simpl. lia.
  - exact Hrows.
Defined.

(** [line_catalog] with no city asked for: M, the most populous, comes
    back. *)
Lemma one_city_when_at_most_one_requested_witness :
  0 <= 1
  /\ select_dispersed_cities (ext := equator) 1 line_catalog 0 500
     = Some (Ok [(0, mkCity "M" 0 0 100)]).
Proof.
  split; [lia |].
  apply (one_city_when_at_most_one_requested (ext := equator) 0 line_catalog 0
           500 (3, mkCity "M" 0 0 100)
           [(0, mkCity "N" 0 1 50); (2, mkCity "X1" 0 2 30);
            (1, mkCity "X2" 0 3 20)]).
  - lia.
  - vm_compute. reflexivity.
Defined.

(** Five cities asked of [small_catalog], which has three. *)
Lemma whole_pool_is_returned_witness :
  Z.of_nat (length (dropna small_catalog)) <= 5
  /\ exists out : list (Z * City),
       greedy_selection (ext := equator) small_catalog 5
       = Ok (sort_values (Externals := equator) (dropna small_catalog), out)
       /\ Permutation (map snd out) (map snd (dropna small_catalog))
       /\ (select_dispersed_cities (ext := equator) 1 small_catalog 5 500
           = Some (Ok out)
           \/ select_dispersed_cities (ext := equator) 1 small_catalog 5 500
              = Some (Raise ValueError))
       /\ ((forall r1 r2 : Z * City,
              In r1 (dropna small_catalog) -> In r2 (dropna small_catalog) ->
              exists d, city_distance (ext := equator) (snd r1) (snd r2) = Ok d) ->
           select_dispersed_cities (ext := equator) 1 small_catalog 5 500
           = Some (Ok out)).
Proof.
  assert (Hn : Z.of_nat (length (dropna small_catalog)) <= 5)
    by (vm_compute; discriminate).
  split; [exact Hn |].
  apply (whole_pool_is_returned (ext := equator) equator_haversine_distance_sym
           equator_haversine_distance_self 0 small_catalog 5 500).
  - vm_compute. apply Permutation_refl.
  - exact equator_distances_km_nonneg.
  - vm_compute. discriminate.
  - exact Hn.
Defined.

(** [line_catalog], three cities asked for. *)
Lemma greedy_selection_keeps_seed_witness :
  exists (first : Z * City) (rest others : list (Z * City)),
    sort_values (Externals := equator) (dropna line_catalog) = first :: rest
    /\ [(3, mkCity "M" 0 0 100); (0, mkCity "N" 0 1 50);
        (2, mkCity "X1" 0 2 30); (1, mkCity "X2" 0 3 20)] = first :: rest
    /\ [(0, mkCity "M" 0 0 100); (1, mkCity "N" 0 1 50);
        (2, mkCity "X1" 0 2 30)] = (0, snd first) :: others.
Proof.
  apply (greedy_selection_keeps_seed (ext := equator) line_catalog 3).
  vm_compute. reflexivity.
Defined.

(** The pass on [tied_selection] that puts X, label 3 of the pool, under
    label 1. *)
Lemma replaced_label_leaves_the_set_witness :
  exists (replace_idx : Z) (best : Z * City),
    In best tied_pool
    /\ (fst best ∉ (list_to_set (map fst tied_selection) : gset Z))
    /\ replace_idx ∈ (list_to_set (map fst tied_selection) : gset Z)
    /\ [(0, M_city); (1, X_city); (2, W_city)]
       = set_loc tied_selection replace_idx (snd best)
    /\ loc [(0, M_city); (1, X_city); (2, W_city)] replace_idx = Row (snd best)
    /\ fst best
       ∈ ({[3]} ∪ list_to_set (map fst tied_selection) ∖ {[1]} : gset Z)
    /\ (replace_idx
        ∉ ({[3]} ∪ list_to_set (map fst tied_selection) ∖ {[1]} : gset Z)).
Proof.
  apply (replaced_label_leaves_the_set (ext := equator) tied_pool 500
           tied_selection (list_to_set (map fst tied_selection))
           [(0, M_city); (1, X_city); (2, W_city)]
           ({[3]} ∪ list_to_set (map fst tied_selection) ∖ {[1]})).
  vm_compute. reflexivity.
Defined.

(** M and X are a quarter of the equator apart. *)
Lemma repair_returns_separated_selection_witness :
  separated (ext := equator) 500 [(0, M_city); (1, X_city)]
  /\ post_process_city_selection (ext := equator) 1 [(0, M_city); (1, X_city)]
       tied_pool 500
     = Some (Ok [(0, M_city); (1, X_city)]).
Proof.
  assert (Hsep : separated (ext := equator) 500 [(0, M_city); (1, X_city)]).
  { intros r1 r2 [<- | [<- | []]] [<- | [<- | []]] Hne; simpl in Hne;
      try congruence; eexists; (split; [reflexivity |]); vm_compute; discriminate. }
  split; [exact Hsep |].
  apply (repair_returns_separated_selection (ext := equator) 0
           [(0, M_city); (1, X_city)] tied_pool 500 Hsep).
Defined.

(** [tied_selection], whose rows are one degree apart, with a threshold
    of 0. *)
Lemma nonpositive_threshold_disables_repair_witness :
  (0 <= 0)%Q
  /\ post_process_city_selection (ext := equator) 1 tied_selection tied_pool 0
     = Some (Ok tied_selection).
Proof.
  split; [apply Qle_refl |].
  apply (nonpositive_threshold_disables_repair (ext := equator) 0 tied_selection
           tied_pool 0 equator_haversine_distance_nonneg).
  - intros r1 r2 _ _ _. apply equator_city_distance_defined.
  - apply Qle_refl.
Defined.


(** Three rows, of which the second and the third are the two antipodes
    whose distance is not defined. *)
Lemma undefined_distance_in_selection_raises_witness :
  post_process_city_selection (ext := antipodes) 1
    ((5, M_city) :: map (fun r : Z * City => (fst r + 6, snd r)) antipodal_selection)
    tied_pool 500
  = Some (Raise ValueError).
Proof.
  apply (undefined_distance_in_selection_raises (ext := antipodes) 0
           ((5, M_city)
            :: map (fun r : Z * City => (fst r + 6, snd r)) antipodal_selection)
           tied_pool 500
           (6, mkCity "North" 82 0 1000) (7, mkCity "South" (-82) (-180) 900)).
  - right. left. reflexivity.
  - right. right. left. reflexivity.
  - simpl. lia.
  - reflexivity.
Defined.
